(** * optimistate: the optimistic executor [runOptimistic]

    A shallow embedding of [src/lib/run-optimistic.ts] and of the types of
    [src/lib/types.ts] it works on, with the properties of the executor
    proved over it.

    How the TypeScript is rendered:
    - a value cell is a slot of a store of cells ([gmap nat value]): its
      [get] returns what its [set] stored last. A [WritableTarget] is one
      of the two accessor shapes of [types.ts], each naming the slot its
      closures work on, so two targets may share a cell;
    - the Source Set is the association list of the descriptor's
      [sources] object in [Object.keys] order;
    - a snapshot object is a finite map from key to value; a missing
      property reads [undefined];
    - the two module-level [WeakMap]s are finite maps keyed by the identity
      of the descriptor object, and a descriptor object keeps its fields;
    - a promise is an index in the table of promises. The [async] arrow
      function of [runOptimistic] runs synchronously up to its [await]
      ([run_body]) and leaves a frame there; [resume] is the rest of the
      function, run when the confirming operation has settled;
    - the confirming operation belongs to the caller and returns a
      promise, as its type says: calling it is an event of the log, and
      how it settles is the input of [resume];
    - [mutate] is a pure function: it returns the optimistic snapshot or
      throws, and leaves the snapshot it is given alone. A custom rollback
      handler is a function on the store of cells that may also throw;
    - the log lists what the executor does in order: the reads and writes
      of source cells, the writes to the status and error targets, and
      the calls of [mutate], of the confirming operation and of the
      rollback handler.
    Callbacks and accessors do not call back into [runOptimistic], so the
    synchronous part of a call is one step of the host. *)

From stdpp Require Import gmap strings list fin_maps relations.
From Stdlib Require Import ZArith Lia.

Local Open Scope Z_scope.

(** ** Values *)

(** JavaScript values, opaque to the executor ([unknown] in the source). *)
#[local] Unset Elimination Schemes.
Inductive value : Type :=
| VUndefined
| VNull
| VBool (b : bool)
| VNum (n : Z)
| VStr (s : string)
| VError (message : string)
| VObject (properties : list (string * value)).
#[local] Set Elimination Schemes.

#[global] Instance value_inhabited : Inhabited value := populate VUndefined.

(** [v.name], for a property that holds a number. *)
Definition number_property (v : value) (name : string) : option Z :=
  match v with
  | VObject properties =>
      match (list_to_map properties : gmap string value) !! name with
      | Some (VNum n) => Some n
      | _ => None
      end
  | _ => None
  end.

(** [OptimisticActionStatus] of [types.ts]. *)
Inductive OptimisticActionStatus : Type := Idle | Pending | Success | Error.

(** The string literal a status is at run time. *)
Definition status_value (s : OptimisticActionStatus) : value :=
  match s with
  | Idle => VStr "idle"
  | Pending => VStr "pending"
  | Success => VStr "success"
  | Error => VStr "error"
  end.

(** What a synchronous callback does: return or throw. *)
Inductive completion (A : Type) : Type :=
| Normal (a : A)
| Throw (e : value).
Arguments Normal {A} a.
Arguments Throw {A} e.

(** ** Cells and targets ([types.ts]) *)

(** [WritableTarget<T> = WritableRef<T> | CallableWritable<T>]: an object
    with [get]/[set], or a callable with an attached [set]. *)
Inductive WritableTarget : Type :=
| WritableRef (cell : nat)
| CallableWritable (cell : nat).

Definition target_cell (ref : WritableTarget) : nat :=
  match ref with
  | WritableRef l => l
  | CallableWritable l => l
  end.

(** [SourceMap = Record<string, WritableTarget<unknown>>]. *)
Definition SourceMap : Type := list (string * WritableTarget).

Definition Object_keys (sources : SourceMap) : list string := sources.*1.

(** [sources[key]]. *)
Fixpoint sources_get (sources : SourceMap) (key : string) : option WritableTarget :=
  match sources with
  | [] => None
  | (k, ref) :: rest => if decide (k = key) then Some ref else sources_get rest key
  end.

(** [snapshot[key]] on a snapshot object. *)
Definition snapshot_get (s : gmap string value) (key : string) : value :=
  default VUndefined (s !! key).

Record OperationCtx : Type := mkOperationCtx {
  ctx_payload : value;
  ctx_optimistic : gmap string value;
  ctx_snapshot : gmap string value
}.

Record RollbackCtx : Type := mkRollbackCtx {
  rb_payload : value;
  rb_optimistic : gmap string value;
  rb_snapshot : gmap string value;
  rb_error : value
}.

(** [RollbackHandler]: it works on the caller's cells; [Some e] in the
    second component is a handler that threw [e]. *)
Definition RollbackHandler : Type :=
  RollbackCtx → gmap nat value → gmap nat value * option value.

Inductive Concurrency : Type := allow | ignore.

(** [BaseOptimisticOperation]. The [operation] field is the caller's
    asynchronous collaborator and [name] is not used in control flow. *)
Record OptimisticOperation : Type := mkOperation {
  sources : SourceMap;
  mutate : gmap string value → value → completion (gmap string value);
  concurrency : option Concurrency;
  status : option WritableTarget;
  error : option WritableTarget;
  rollback : option RollbackHandler
}.

(** ** Executor state *)

Inductive promise : Type :=
| Unsettled
| Fulfilled (result : value)
| Rejected (reason : value).

(** What the executor does, in order. *)
Inductive event : Type :=
| EvRead (key : string) (cell : nat) (v : value)
| EvMutate (snapshot : gmap string value) (payload : value)
| EvWrite (key : string) (cell : nat) (v : value)
| EvStatus (cell : nat) (s : OptimisticActionStatus)
| EvError (cell : nat) (v : value)
| EvOperation (opKey : nat) (ctx : OperationCtx)
| EvRollback (opKey : nat) (ctx : RollbackCtx).

(** The locals of the [async] function that are live across its [await]. *)
Record frame : Type := mkFrame {
  fr_opKey : nat;
  fr_op : OptimisticOperation;
  fr_payload : value;
  fr_optimistic : gmap string value;
  fr_snapshot : gmap string value
}.

Record state : Type := mkState {
  cells : gmap nat value;
  inFlightCount : gmap nat Z;
  inFlightPromise : gmap nat nat;
  promises : list promise;
  awaiting : gmap nat frame;
  log : list event
}.

Definition initial (σ : gmap nat value) : state :=
  mkState σ ∅ ∅ [] ∅ [].

Definition set_cells (σ : gmap nat value) (st : state) : state :=
  mkState σ (inFlightCount st) (inFlightPromise st) (promises st) (awaiting st) (log st).

Definition set_inFlightCount (m : gmap nat Z) (st : state) : state :=
  mkState (cells st) m (inFlightPromise st) (promises st) (awaiting st) (log st).

Definition set_inFlightPromise (m : gmap nat nat) (st : state) : state :=
  mkState (cells st) (inFlightCount st) m (promises st) (awaiting st) (log st).

Definition set_promises (ps : list promise) (st : state) : state :=
  mkState (cells st) (inFlightCount st) (inFlightPromise st) ps (awaiting st) (log st).

Definition set_awaiting (fs : gmap nat frame) (st : state) : state :=
  mkState (cells st) (inFlightCount st) (inFlightPromise st) (promises st) fs (log st).

Definition emit (e : event) (st : state) : state :=
  mkState (cells st) (inFlightCount st) (inFlightPromise st) (promises st) (awaiting st)
          (log st ++ [e]).

(** ** [run-optimistic.ts] *)

Definition readTarget (ref : WritableTarget) (σ : gmap nat value) : value :=
  match ref with
  | CallableWritable l => σ !!! l
  | WritableRef l => σ !!! l
  end.

Definition writeTarget (ref : WritableTarget) (next : value) (σ : gmap nat value)
  : gmap nat value :=
  match ref with
  | CallableWritable l => <[l := next]> σ
  | WritableRef l => <[l := next]> σ
  end.

Definition setTarget (ref : option WritableTarget) (next : value) (σ : gmap nat value)
  : gmap nat value :=
  match ref with
  | None => σ
  | Some r => writeTarget r next σ
  end.

Definition setStatus (statusRef : option WritableTarget) (next : OptimisticActionStatus)
    (st : state) : state :=
  match statusRef with
  | None => st
  | Some r => emit (EvStatus (target_cell r) next)
                (set_cells (setTarget statusRef (status_value next) (cells st)) st)
  end.

Definition setError (errorRef : option WritableTarget) (next : value) (st : state) : state :=
  match errorRef with
  | None => st
  | Some r => emit (EvError (target_cell r) next)
                (set_cells (setTarget errorRef next (cells st)) st)
  end.

Definition ConfigurationError : value :=
  VError "runOptimistic requires at least one source to update.".

(** [for (const key of keys) snapshot[key] = readTarget(sources[key])]. A
    key of [Object.keys(sources)] always has its target. *)
Fixpoint read_sources (srcs : SourceMap) (keys : list string)
    (snapshot : gmap string value) (st : state) : gmap string value * state :=
  match keys with
  | [] => (snapshot, st)
  | key :: keys' =>
      match sources_get srcs key with
      | Some ref =>
          let v := readTarget ref (cells st) in
          read_sources srcs keys' (<[key := v]> snapshot)
            (emit (EvRead key (target_cell ref) v) st)
      | None => read_sources srcs keys' snapshot st
      end
  end.

(** [for (const key of keys) writeTarget(sources[key], values[key])]. *)
Fixpoint write_sources (srcs : SourceMap) (keys : list string)
    (values : gmap string value) (st : state) : state :=
  match keys with
  | [] => st
  | key :: keys' =>
      match sources_get srcs key with
      | Some ref =>
          let v := snapshot_get values key in
          write_sources srcs keys' values
            (emit (EvWrite key (target_cell ref) v)
               (set_cells (writeTarget ref v (cells st)) st))
      | None => write_sources srcs keys' values st
      end
  end.

(** The promise of the [async] function settles. *)
Definition settle (p : nat) (s : promise) (st : state) : state :=
  set_promises (<[p := s]> (promises st)) st.

(** The [finally] block. *)
Definition finally_block (opKey : nat) (st : state) : state :=
  let nextActive := default 1 (inFlightCount st !! opKey) - 1 in
  if decide (0 < nextActive)
  then set_inFlightCount (<[opKey := nextActive]> (inFlightCount st)) st
  else set_inFlightPromise (delete opKey (inFlightPromise st))
         (set_inFlightCount (delete opKey (inFlightCount st)) st).

(** The early return of [runOptimistic]: the stored promise, when the
    policy is ['ignore'], the counter is positive and a promise is stored. *)
Definition attached (opKey : nat) (op : OptimisticOperation) (st : state) : option nat :=
  let active := default 0 (inFlightCount st !! opKey) in
  match default allow (concurrency op) with
  | ignore => if decide (0 < active) then inFlightPromise st !! opKey else None
  | allow => None
  end.

(** The body of the [async] function up to its [await]: [runPromise] is
    rejected there, or the function is suspended on the confirming
    operation. *)
Definition run_body (opKey : nat) (op : OptimisticOperation) (payload : value)
    (active : Z) (runPromise : nat) (st : state) : state :=
  let st := set_inFlightCount (<[opKey := active + 1]> (inFlightCount st)) st in
  let keys := Object_keys (sources op) in
  match keys with
  | [] => settle runPromise (Rejected ConfigurationError) st
  | _ :: _ =>
      let '(snapshot, st) := read_sources (sources op) keys ∅ st in
      match mutate op snapshot payload with
      | Throw e => settle runPromise (Rejected e) (emit (EvMutate snapshot payload) st)
      | Normal optimistic =>
          let st := emit (EvMutate snapshot payload) st in
          let st := write_sources (sources op) keys optimistic st in
          let st := setStatus (status op) Pending st in
          let st := setError (error op) VNull st in
          let st := emit (EvOperation opKey (mkOperationCtx payload optimistic snapshot)) st in
          set_awaiting
            (<[runPromise := mkFrame opKey op payload optimistic snapshot]> (awaiting st)) st
      end
  end.

Definition runOptimistic (opKey : nat) (op : OptimisticOperation) (payload : value)
    (st : state) : nat * state :=
  let active := default 0 (inFlightCount st !! opKey) in
  match attached opKey op st with
  | Some existing => (existing, st)
  | None =>
      let runPromise := length (promises st) in
      let st := set_promises (promises st ++ [Unsettled]) st in
      let st := run_body opKey op payload active runPromise st in
      let st := set_inFlightPromise (<[opKey := runPromise]> (inFlightPromise st)) st in
      (runPromise, st)
  end.

(** The rest of the [async] function, entered when the promise of the
    confirming operation settles: [inl result] when it resolved, [inr err]
    when it rejected. *)
Definition resume (p : nat) (outcome : value + value) (st : state) : state :=
  match awaiting st !! p with
  | None => st
  | Some fr =>
      let op := fr_op fr in
      let keys := Object_keys (sources op) in
      let st := set_awaiting (delete p (awaiting st)) st in
      match outcome with
      | inl result =>
          let st := setStatus (status op) Success st in
          let st := finally_block (fr_opKey fr) st in
          settle p (Fulfilled result) st
      | inr err =>
          match rollback op with
          | Some handler =>
              let ctx := mkRollbackCtx (fr_payload fr) (fr_optimistic fr) (fr_snapshot fr) err in
              let st := emit (EvRollback (fr_opKey fr) ctx) st in
              match handler ctx (cells st) with
              | (σ, Some thrown) =>
                  let st := set_cells σ st in
                  let st := finally_block (fr_opKey fr) st in
                  settle p (Rejected thrown) st
              | (σ, None) =>
                  let st := set_cells σ st in
                  let st := setStatus (status op) Error st in
                  let st := setError (error op) err st in
                  let st := finally_block (fr_opKey fr) st in
                  settle p (Rejected err) st
              end
          | None =>
              let st := write_sources (sources op) keys (fr_snapshot fr) st in
              let st := setStatus (status op) Error st in
              let st := setError (error op) err st in
              let st := finally_block (fr_opKey fr) st in
              settle p (Rejected err) st
          end
      end
  end.

(** ** The host program around the executor *)

(** One step of the host: a call of [runOptimistic] on one of its
    descriptor objects ([objs] gives the object of an identity), the
    continuation of a suspended run when its confirming operation settles,
    or a write to a cell by other code. *)
Inductive step (objs : nat → option OptimisticOperation) : state → state → Prop :=
| step_run opKey op payload st :
    objs opKey = Some op →
    step objs st (runOptimistic opKey op payload st).2
| step_settle p outcome st :
    is_Some (awaiting st !! p) →
    step objs st (resume p outcome st)
| step_cell l v st :
    step objs st (set_cells (<[l := v]> (cells st)) st).

(** ** What the loops compute *)

(** The prior snapshot a run started in [st] takes (step 1 alone). *)
Definition prior_snapshot (op : OptimisticOperation) (st : state) : gmap string value :=
  (read_sources (sources op) (Object_keys (sources op)) ∅ st).1.

Definition read_event (srcs : SourceMap) (σ : gmap nat value) (key : string) : option event :=
  ref ← sources_get srcs key; Some (EvRead key (target_cell ref) (readTarget ref σ)).

Definition read_events (srcs : SourceMap) (keys : list string) (σ : gmap nat value)
  : list event := omap (read_event srcs σ) keys.

Definition write_event (srcs : SourceMap) (values : gmap string value) (key : string)
  : option event :=
  ref ← sources_get srcs key; Some (EvWrite key (target_cell ref) (snapshot_get values key)).

Definition write_events (srcs : SourceMap) (keys : list string) (values : gmap string value)
  : list event := omap (write_event srcs values) keys.

Fixpoint snapshot_into (srcs : SourceMap) (keys : list string) (snapshot : gmap string value)
    (σ : gmap nat value) : gmap string value :=
  match keys with
  | [] => snapshot
  | key :: keys' =>
      match sources_get srcs key with
      | Some ref => snapshot_into srcs keys' (<[key := readTarget ref σ]> snapshot) σ
      | None => snapshot_into srcs keys' snapshot σ
      end
  end.

Fixpoint write_cells (srcs : SourceMap) (keys : list string) (values : gmap string value)
    (σ : gmap nat value) : gmap nat value :=
  match keys with
  | [] => σ
  | key :: keys' =>
      match sources_get srcs key with
      | Some ref => write_cells srcs keys' values (writeTarget ref (snapshot_get values key) σ)
      | None => write_cells srcs keys' values σ
      end
  end.

(** The events of a write to an optional target. *)
Definition status_events (ref : option WritableTarget) (s : OptimisticActionStatus)
  : list event :=
  match ref with Some r => [EvStatus (target_cell r) s] | None => [] end.

Definition error_events (ref : option WritableTarget) (v : value) : list event :=
  match ref with Some r => [EvError (target_cell r) v] | None => [] end.

(** The cells of the Source Set, and the cells of the status and error
    targets. *)
Definition source_cells (op : OptimisticOperation) : list nat :=
  (target_cell ∘ snd) <$> sources op.

Definition target_cells (op : OptimisticOperation) : list nat :=
  (target_cell <$> option_list (status op)) ++ (target_cell <$> option_list (error op)).

(** Distinct keys name distinct cells. *)
Definition distinct_sources (op : OptimisticOperation) : Prop :=
  NoDup (source_cells op).

(** The status and error cells are not cells of the Source Set. *)
Definition targets_off_sources (op : OptimisticOperation) : Prop :=
  Forall (λ l, l ∉ source_cells op) (target_cells op).

(** What holds of every state the host reaches, when [objs] gives each
    identity its one descriptor object. *)
Record invariant (objs : nat → option OptimisticOperation) (st : state) : Prop := mkInvariant {
  (** a stored counter is positive *)
  inv_counts : ∀ k c, inFlightCount st !! k = Some c → 0 < c;
  (** the promise of a suspended run is not settled *)
  inv_unsettled : ∀ p fr, awaiting st !! p = Some fr → promises st !! p = Some Unsettled;
  (** a suspended run holds the descriptor object of its identity *)
  inv_objs : ∀ p fr, awaiting st !! p = Some fr → objs (fr_opKey fr) = Some (fr_op fr);
  (** under ['ignore'], the promise stored for a descriptor is the one of
      its suspended run, and its counter is set *)
  inv_ignore : ∀ p fr,
    awaiting st !! p = Some fr → concurrency (fr_op fr) = Some ignore →
    inFlightPromise st !! fr_opKey fr = Some p ∧ is_Some (inFlightCount st !! fr_opKey fr);
  (** the promise stored for a descriptor without sources is rejected with
      the configuration error *)
  inv_no_sources : ∀ k op p,
    objs k = Some op → Object_keys (sources op) = [] →
    inFlightPromise st !! k = Some p →
    promises st !! p = Some (Rejected ConfigurationError)
}.

(** ** A descriptor with and without its status and error targets *)

(** The descriptor with [status], [error] or both left out. *)
Definition omit_targets (no_status no_error : bool) (op : OptimisticOperation)
  : OptimisticOperation :=
  mkOperation (sources op) (mutate op) (concurrency op)
    (if no_status then None else status op)
    (if no_error then None else error op)
    (rollback op).

Definition omit_targets_frame (no_status no_error : bool) (fr : frame) : frame :=
  mkFrame (fr_opKey fr) (omit_targets no_status no_error (fr_op fr)) (fr_payload fr)
          (fr_optimistic fr) (fr_snapshot fr).

Definition is_target_write (e : event) : bool :=
  match e with
  | EvStatus _ _ | EvError _ _ => true
  | _ => false
  end.

(** The log without the writes to status and error targets: the reads and
    writes of source cells and the calls of [mutate], of the confirming
    operation and of the rollback handler. *)
Definition source_trace (es : list event) : list event :=
  filter (λ e, is_target_write e = false) es.

(** Two stores that agree on every cell outside [ts]. *)
Definition agree_off (ts : list nat) (σ σ' : gmap nat value) : Prop :=
  ∀ l, l ∉ ts → σ !! l = σ' !! l.

(** A rollback handler that does not depend on the cells [ts]. *)
Definition blind (ts : list nat) (handler : RollbackHandler) : Prop :=
  ∀ ctx σ σ', agree_off ts σ σ' →
    (handler ctx σ).2 = (handler ctx σ').2
    ∧ agree_off ts (handler ctx σ).1 (handler ctx σ').1.

(** Two states of the executor that differ only by what the targets on the
    cells [ts] add: the contents of those cells, the writes to targets in
    the log, and the targets held by suspended runs. *)
Record twin (ts : list nat) (st st' : state) : Prop := mkTwin {
  twin_cells : agree_off ts (cells st) (cells st');
  twin_count : inFlightCount st = inFlightCount st';
  twin_stored : inFlightPromise st = inFlightPromise st';
  twin_promises : promises st = promises st';
  twin_trace : source_trace (log st) = source_trace (log st');
  twin_frames : ∀ q,
    option_Forall2
      (λ fr fr', fr' = fr ∨ ∃ no_status no_error, fr' = omit_targets_frame no_status no_error fr)
      (awaiting st !! q) (awaiting st' !! q)
}.

(** ** Descriptors of the test-suite *)

(** [mutate: (state, payload) => ({ counter: state.counter + payload.delta })]
    on numbers; reading [delta] off a payload that is no object throws. *)
Definition add_delta (snapshot : gmap string value) (payload : value)
  : completion (gmap string value) :=
  match snapshot_get snapshot "counter", number_property payload "delta" with
  | VNum n, Some delta => Normal {[ "counter" := VNum (n + delta) ]}
  | _, _ => Throw (VError "Cannot read properties of undefined")
  end.

(** [{ delta: n }]. *)
Definition delta (n : Z) : value := VObject [("delta", VNum n)].

(** A counter in cell 0, its status in cell 1 and its error in cell 2. *)
Definition counter_op (policy : option Concurrency) (handler : option RollbackHandler)
  : OptimisticOperation :=
  mkOperation [("counter", WritableRef 0%nat)] add_delta policy
    (Some (WritableRef 1%nat)) (Some (CallableWritable 2%nat)) handler.

(** [rollback: () => counterRef.set(999)]. *)
Definition set_999 : RollbackHandler :=
  λ _ σ, (<[0%nat := VNum 999]> σ, None).

(** [rollback: () => { throw new Error('rollback failed') }]. *)
Definition rollback_throws : RollbackHandler :=
  λ _ σ, (σ, Some (VError "rollback failed")).

(** [sources: {}]. *)
Definition no_sources_op (policy : option Concurrency) : OptimisticOperation :=
  mkOperation [] (λ _ _, Normal ∅) policy (Some (WritableRef 1%nat))
    (Some (CallableWritable 2%nat)) None.

(** A host with one counter that holds 10. *)
Definition counter_cells : gmap nat value := {[ 0%nat := VNum 10 ]}.

(** A host with that counter as its one descriptor object, of identity 7. *)
Definition counter_host (policy : option Concurrency) (handler : option RollbackHandler)
  : nat → option OptimisticOperation :=
  λ k, if decide (k = 7%nat) then Some (counter_op policy handler) else None.

(** [run({ delta: 5 })] on the counter from the start, and the host one
    step later, when other code has written cell 9. *)
Definition counter_called (policy : option Concurrency) (handler : option RollbackHandler)
  : nat * state :=
  runOptimistic 7 (counter_op policy handler) (delta 5) (initial counter_cells).

Definition counter_later (policy : option Concurrency) (handler : option RollbackHandler)
  : state :=
  set_cells (<[9%nat := VNull]> (cells (counter_called policy handler).2))
    (counter_called policy handler).2.

(** A host with a descriptor without sources as its one object. *)
Definition no_sources_host (policy : option Concurrency)
  : nat → option OptimisticOperation :=
  λ k, if decide (k = 7%nat) then Some (no_sources_op policy) else None.

(** How often a log calls the confirming operation. *)
Definition is_operation_call (e : event) : bool :=
  match e with
  | EvOperation _ _ => true
  | _ => false
  end.

Definition operation_calls (es : list event) : nat :=
  length (filter (λ e, is_operation_call e = true) es).

(** ** [create-optimistic-action.ts] *)

(** [createRef]: a new cell that holds [initial], behind [get]/[set]. *)
Definition createRef (initial : value) (σ : gmap nat value)
  : WritableTarget * gmap nat value :=
  let l := fresh (dom σ) in
  (WritableRef l, <[l := initial]> σ).

(** What [createOptimisticAction] returns: [run] has captured the object
    [opWithTargets], of identity [act_key] and fields [act_op]; [status]
    and [error] are the handles. *)
Record OptimisticAction : Type := mkAction {
  act_key : nat;
  act_op : OptimisticOperation;
  act_status : WritableTarget;
  act_error : WritableTarget
}.

(** The program around the library: its descriptor objects by identity,
    and the state of the executor. *)
Record host : Type := mkHost {
  objects : gmap nat OptimisticOperation;
  executor : state
}.

Definition host_initial (σ : gmap nat value) : host := mkHost ∅ (initial σ).

(** [op.status ?? createRef('idle')], [op.error ?? createRef(null)] and
    the object [{ ...op, status, error }]. *)
Definition createOptimisticAction (op : OptimisticOperation) (h : host)
  : OptimisticAction * host :=
  let σ := cells (executor h) in
  let '(statusRef, σ) :=
    match status op with
    | Some r => (r, σ)
    | None => createRef (status_value Idle) σ
    end in
  let '(errorRef, σ) :=
    match error op with
    | Some r => (r, σ)
    | None => createRef VNull σ
    end in
  let opWithTargets :=
    mkOperation (sources op) (mutate op) (concurrency op)
      (Some statusRef) (Some errorRef) (rollback op) in
  let k := fresh (dom (objects h)) in
  (mkAction k opWithTargets statusRef errorRef,
   mkHost (<[k := opWithTargets]> (objects h)) (set_cells σ (executor h))).

(** [action.run(payload)]. *)
Definition run (a : OptimisticAction) (payload : value) (h : host) : nat * host :=
  let '(p, st) := runOptimistic (act_key a) (act_op a) payload (executor h) in
  (p, mkHost (objects h) st).

(** One step of the program: it builds a descriptor object, makes an
    action of a descriptor, calls [runOptimistic] on one of its objects
    (so also [action.run]), a confirming operation settles, or other code
    writes a cell. *)
Inductive host_step : host → host → Prop :=
| host_literal op h :
    host_step h (mkHost (<[fresh (dom (objects h)) := op]> (objects h)) (executor h))
| host_create op h :
    host_step h (createOptimisticAction op h).2
| host_run k op payload h :
    objects h !! k = Some op →
    host_step h (mkHost (objects h) (runOptimistic k op payload (executor h)).2)
| host_settle p outcome h :
    is_Some (awaiting (executor h) !! p) →
    host_step h (mkHost (objects h) (resume p outcome (executor h)))
| host_cell l v h :
    host_step h (mkHost (objects h) (set_cells (<[l := v]> (cells (executor h))) (executor h))).

(** What holds of every state the program reaches: the invariant of the
    executor for its objects, and bookkeeping only for objects it has. *)
Record host_invariant (h : host) : Prop := mkHostInvariant {
  hinv_executor : invariant (λ k, objects h !! k) (executor h);
  hinv_count : ∀ k, is_Some (inFlightCount (executor h) !! k) → is_Some (objects h !! k);
  hinv_stored : ∀ k, is_Some (inFlightPromise (executor h) !! k) → is_Some (objects h !! k)
}.

(** The runs of descriptor [k] that are suspended on their confirming
    operation. *)
Definition suspended_runs (k : nat) (st : state) : nat :=
  size (filter (λ pf : nat * frame, fr_opKey pf.2 = k) (awaiting st)).

(** The counter of a descriptor covers its suspended runs, and counter
    and stored promise are there together. *)
Definition counted (st : state) : Prop :=
  ∀ k, Z.of_nat (suspended_runs k st) ≤ default 0 (inFlightCount st !! k)
       ∧ (is_Some (inFlightCount st !! k) ↔ is_Some (inFlightPromise st !! k)).

(** A write of ['idle'] to a status target. *)
Definition announces_idle (e : event) : bool :=
  match e with
  | EvStatus _ Idle => true
  | _ => false
  end.

(** An action made of the counter under ['ignore'], and the program after
    its [run({ delta: 1 })]. *)
Definition action_running : OptimisticAction * host :=
  let '(a, h) := createOptimisticAction (counter_op (Some ignore) None)
                   (host_initial counter_cells) in
  (a, (run a (delta 1) h).2).

(** The counter without targets, and the action made of it. *)
Definition bare_counter_op : OptimisticOperation :=
  mkOperation [("counter", WritableRef 0%nat)] add_delta None None None None.

Definition bare_action : OptimisticAction * host :=
  createOptimisticAction bare_counter_op (host_initial counter_cells).

(** ** Basic facts *)

(** Projections of an updated state. *)
Ltac fields :=
  unfold settle;
  unfold set_cells, set_inFlightCount, set_inFlightPromise, set_promises, set_awaiting, emit;
  cbn [cells inFlightCount inFlightPromise promises awaiting log fst snd].

Lemma readTarget_lookup ref σ : readTarget ref σ = σ !!! target_cell ref.
Proof. by destruct ref. Qed.

Lemma writeTarget_insert ref v σ : writeTarget ref v σ = <[target_cell ref := v]> σ.
Proof. by destruct ref. Qed.

Lemma sources_get_elem srcs key ref :
  sources_get srcs key = Some ref → (key, ref) ∈ srcs.
Proof.
  induction srcs as [|[k r] rest IH]; simpl; [done|].
  case_decide as Hk.
  - intros [= ->]. subst. apply list_elem_of_here.
  - intros H. apply list_elem_of_further, IH, H.
Qed.

Lemma sources_get_keys srcs key :
  key ∈ Object_keys srcs → is_Some (sources_get srcs key).
Proof.
  unfold Object_keys. induction srcs as [|[k r] rest IH]; simpl.
  - by intros ?%elem_of_nil.
  - intros [->|Hin]%elem_of_cons; case_decide; eauto; congruence.
Qed.

Lemma sources_get_in_keys srcs key ref :
  sources_get srcs key = Some ref → key ∈ Object_keys srcs.
Proof.
  intros H%sources_get_elem. unfold Object_keys.
  apply list_elem_of_fmap. by exists (key, ref).
Qed.

Lemma read_sources_spec srcs keys snapshot st :
  read_sources srcs keys snapshot st =
    (snapshot_into srcs keys snapshot (cells st),
     mkState (cells st) (inFlightCount st) (inFlightPromise st) (promises st) (awaiting st)
             (log st ++ read_events srcs keys (cells st))).
Proof.
  revert snapshot st. induction keys as [|key keys IH]; intros snapshot st; simpl.
  - rewrite app_nil_r. by destruct st.
  - unfold read_events, read_event. simpl. destruct (sources_get srcs key) as [ref|]; simpl.
    + rewrite IH. simpl. by rewrite <- app_assoc.
    + apply IH.
Qed.

Lemma write_sources_spec srcs keys values st :
  write_sources srcs keys values st =
    mkState (write_cells srcs keys values (cells st)) (inFlightCount st) (inFlightPromise st)
            (promises st) (awaiting st) (log st ++ write_events srcs keys values).
Proof.
  revert st. induction keys as [|key keys IH]; intros st; simpl.
  - rewrite app_nil_r. by destruct st.
  - unfold write_events, write_event. simpl. destruct (sources_get srcs key) as [ref|]; simpl.
    + rewrite IH. simpl. by rewrite <- app_assoc.
    + apply IH.
Qed.

Lemma setStatus_spec ref s st :
  setStatus ref s st =
    mkState (setTarget ref (status_value s) (cells st)) (inFlightCount st) (inFlightPromise st)
            (promises st) (awaiting st) (log st ++ status_events ref s).
Proof. destruct ref; simpl; [done|]. rewrite app_nil_r. by destruct st. Qed.

Lemma setError_spec ref v st :
  setError ref v st =
    mkState (setTarget ref v (cells st)) (inFlightCount st) (inFlightPromise st)
            (promises st) (awaiting st) (log st ++ error_events ref v).
Proof. destruct ref; simpl; [done|]. rewrite app_nil_r. by destruct st. Qed.

Lemma prior_snapshot_cells op st :
  prior_snapshot op st = snapshot_into (sources op) (Object_keys (sources op)) ∅ (cells st).
Proof. unfold prior_snapshot. by rewrite read_sources_spec. Qed.

Lemma finally_block_cells k st : cells (finally_block k st) = cells st.
Proof. unfold finally_block. by case_decide. Qed.

Lemma finally_block_promises k st : promises (finally_block k st) = promises st.
Proof. unfold finally_block. by case_decide. Qed.

Lemma finally_block_awaiting k st : awaiting (finally_block k st) = awaiting st.
Proof. unfold finally_block. by case_decide. Qed.

Lemma finally_block_log k st : log (finally_block k st) = log st.
Proof. unfold finally_block. by case_decide. Qed.

(** The bookkeeping [finally_block] leaves depends on the bookkeeping only. *)
Lemma finally_block_book k st st' :
  inFlightCount st = inFlightCount st' →
  inFlightPromise st = inFlightPromise st' →
  inFlightCount (finally_block k st) = inFlightCount (finally_block k st') ∧
  inFlightPromise (finally_block k st) = inFlightPromise (finally_block k st').
Proof.
  intros Hc Hp. unfold finally_block. rewrite Hc.
  case_decide; simpl; by rewrite ?Hc, ?Hp.
Qed.

(** *** The three ways the synchronous part of a run ends *)

Lemma runOptimistic_attached opKey op payload st existing :
  attached opKey op st = Some existing →
  runOptimistic opKey op payload st = (existing, st).
Proof. intros H. unfold runOptimistic. by rewrite H. Qed.

Lemma runOptimistic_no_sources opKey op payload st :
  attached opKey op st = None →
  Object_keys (sources op) = [] →
  runOptimistic opKey op payload st =
    (length (promises st),
     mkState (cells st)
       (<[opKey := default 0 (inFlightCount st !! opKey) + 1]> (inFlightCount st))
       (<[opKey := length (promises st)]> (inFlightPromise st))
       (<[length (promises st) := Rejected ConfigurationError]> (promises st ++ [Unsettled]))
       (awaiting st) (log st)).
Proof.
  intros Hatt Hkeys. unfold runOptimistic, run_body. by rewrite Hatt, Hkeys.
Qed.

Lemma runOptimistic_mutate_throws opKey op payload st e :
  attached opKey op st = None →
  Object_keys (sources op) ≠ [] →
  mutate op (prior_snapshot op st) payload = Throw e →
  runOptimistic opKey op payload st =
    (length (promises st),
     mkState (cells st)
       (<[opKey := default 0 (inFlightCount st !! opKey) + 1]> (inFlightCount st))
       (<[opKey := length (promises st)]> (inFlightPromise st))
       (<[length (promises st) := Rejected e]> (promises st ++ [Unsettled]))
       (awaiting st)
       (log st ++ read_events (sources op) (Object_keys (sources op)) (cells st)
               ++ [EvMutate (prior_snapshot op st) payload])).
Proof.
  intros Hatt Hkeys Hmut. rewrite prior_snapshot_cells in *.
  unfold runOptimistic, run_body. rewrite Hatt.
  destruct (Object_keys (sources op)) as [|k ks] eqn:Ek; [done|].
  cbv beta iota zeta. rewrite <- Ek in *.
  rewrite read_sources_spec. cbv beta iota zeta. fields. rewrite Hmut. fields.
  by rewrite <- ?app_assoc.
Qed.

Lemma runOptimistic_started opKey op payload st optimistic :
  attached opKey op st = None →
  Object_keys (sources op) ≠ [] →
  mutate op (prior_snapshot op st) payload = Normal optimistic →
  runOptimistic opKey op payload st =
    (length (promises st),
     mkState
       (setTarget (error op) VNull
          (setTarget (status op) (status_value Pending)
             (write_cells (sources op) (Object_keys (sources op)) optimistic (cells st))))
       (<[opKey := default 0 (inFlightCount st !! opKey) + 1]> (inFlightCount st))
       (<[opKey := length (promises st)]> (inFlightPromise st))
       (promises st ++ [Unsettled])
       (<[length (promises st) :=
            mkFrame opKey op payload optimistic (prior_snapshot op st)]> (awaiting st))
       (log st ++ read_events (sources op) (Object_keys (sources op)) (cells st)
               ++ [EvMutate (prior_snapshot op st) payload]
               ++ write_events (sources op) (Object_keys (sources op)) optimistic
               ++ status_events (status op) Pending
               ++ error_events (error op) VNull
               ++ [EvOperation opKey (mkOperationCtx payload optimistic (prior_snapshot op st))])).
Proof.
  intros Hatt Hkeys Hmut. rewrite prior_snapshot_cells in *.
  unfold runOptimistic, run_body. rewrite Hatt.
  destruct (Object_keys (sources op)) as [|k ks] eqn:Ek; [done|].
  cbv beta iota zeta. rewrite <- Ek in *.
  rewrite read_sources_spec. cbv beta iota zeta. fields. rewrite Hmut.
  rewrite write_sources_spec, setStatus_spec, setError_spec. fields.
  by rewrite <- !app_assoc.
Qed.

(** *** The ways the rest of a run ends *)

Lemma resume_resolved p result st fr :
  awaiting st !! p = Some fr →
  resume p (inl result) st =
    settle p (Fulfilled result)
      (finally_block (fr_opKey fr)
         (setStatus (status (fr_op fr)) Success
            (set_awaiting (delete p (awaiting st)) st))).
Proof. intros H. unfold resume. by rewrite H. Qed.

Lemma resume_rejected_auto p err st fr :
  awaiting st !! p = Some fr →
  rollback (fr_op fr) = None →
  resume p (inr err) st =
    settle p (Rejected err)
      (finally_block (fr_opKey fr)
         (setError (error (fr_op fr)) err
            (setStatus (status (fr_op fr)) Error
               (write_sources (sources (fr_op fr)) (Object_keys (sources (fr_op fr)))
                  (fr_snapshot fr)
                  (set_awaiting (delete p (awaiting st)) st))))).
Proof. intros H Hrb. unfold resume. by rewrite H, Hrb. Qed.

Lemma resume_rejected_custom p err st fr handler σ :
  awaiting st !! p = Some fr →
  rollback (fr_op fr) = Some handler →
  handler (mkRollbackCtx (fr_payload fr) (fr_optimistic fr) (fr_snapshot fr) err) (cells st)
    = (σ, None) →
  resume p (inr err) st =
    settle p (Rejected err)
      (finally_block (fr_opKey fr)
         (setError (error (fr_op fr)) err
            (setStatus (status (fr_op fr)) Error
               (set_cells σ
                  (emit (EvRollback (fr_opKey fr)
                           (mkRollbackCtx (fr_payload fr) (fr_optimistic fr)
                              (fr_snapshot fr) err))
                     (set_awaiting (delete p (awaiting st)) st)))))).
Proof. intros H Hrb Hh. unfold resume. rewrite H, Hrb. simpl. by rewrite Hh. Qed.

Lemma resume_rejected_custom_throws p err st fr handler σ thrown :
  awaiting st !! p = Some fr →
  rollback (fr_op fr) = Some handler →
  handler (mkRollbackCtx (fr_payload fr) (fr_optimistic fr) (fr_snapshot fr) err) (cells st)
    = (σ, Some thrown) →
  resume p (inr err) st =
    settle p (Rejected thrown)
      (finally_block (fr_opKey fr)
         (set_cells σ
            (emit (EvRollback (fr_opKey fr)
                     (mkRollbackCtx (fr_payload fr) (fr_optimistic fr)
                        (fr_snapshot fr) err))
               (set_awaiting (delete p (awaiting st)) st)))).
Proof. intros H Hrb Hh. unfold resume. rewrite H, Hrb. simpl. by rewrite Hh. Qed.

(** *** Cells after the two write loops *)

Lemma write_cells_other srcs keys values σ l :
  (∀ key ref, key ∈ keys → sources_get srcs key = Some ref → target_cell ref ≠ l) →
  write_cells srcs keys values σ !! l = σ !! l.
Proof.
  revert σ. induction keys as [|key keys IH]; intros σ Hoff; simpl; [done|].
  destruct (sources_get srcs key) as [ref|] eqn:Eg.
  - rewrite IH.
    + rewrite writeTarget_insert. apply lookup_insert_ne.
      eapply Hoff; [apply list_elem_of_here | done].
    + intros k r Hk. apply Hoff. by apply list_elem_of_further.
  - apply IH. intros k r Hk. apply Hoff. by apply list_elem_of_further.
Qed.

Lemma write_cells_hit srcs keys values σ key ref :
  key ∈ keys ∨ σ !! target_cell ref = Some (snapshot_get values key) →
  sources_get srcs key = Some ref →
  (∀ key' ref', key' ∈ keys → sources_get srcs key' = Some ref' →
     target_cell ref' = target_cell ref →
     snapshot_get values key' = snapshot_get values key) →
  write_cells srcs keys values σ !! target_cell ref = Some (snapshot_get values key).
Proof.
  revert σ. induction keys as [|k keys IH]; intros σ Hin Hget Hsame; simpl.
  - destruct Hin as [Hin|Hin]; [by apply elem_of_nil in Hin | done].
  - assert (Hsame' : ∀ key' ref', key' ∈ keys → sources_get srcs key' = Some ref' →
              target_cell ref' = target_cell ref →
              snapshot_get values key' = snapshot_get values key).
    { intros k' r' Hk'. apply Hsame. by apply list_elem_of_further. }
    destruct (sources_get srcs k) as [r|] eqn:Ek.
    + apply IH; [|done|done]. rewrite writeTarget_insert.
      destruct (decide (target_cell r = target_cell ref)) as [Heq|Hne].
      * right. rewrite Heq, lookup_insert_eq. f_equal.
        eapply Hsame; [apply list_elem_of_here | done | done].
      * rewrite lookup_insert_ne by done.
        destruct Hin as [[->|Hin]%elem_of_cons|Hin]; [congruence | by left | by right].
    + apply IH; [|done|done].
      destruct Hin as [[->|Hin]%elem_of_cons|Hin]; [congruence | by left | by right].
Qed.

(** *** Every step keeps the invariant *)

Lemma resume_shape p outcome st fr :
  awaiting st !! p = Some fr →
  ∃ σ es s,
    s ≠ Unsettled ∧
    resume p outcome st =
      settle p s
        (finally_block (fr_opKey fr)
           (mkState σ (inFlightCount st) (inFlightPromise st) (promises st)
                    (delete p (awaiting st)) (log st ++ es))).
Proof.
  intros Hfr. destruct outcome as [result|err].
  - rewrite (resume_resolved _ _ _ _ Hfr), setStatus_spec. fields.
    by eexists _, _, (Fulfilled result).
  - destruct (rollback (fr_op fr)) as [handler|] eqn:Hrb.
    + destruct (handler (mkRollbackCtx (fr_payload fr) (fr_optimistic fr) (fr_snapshot fr) err)
                  (cells st)) as [σ [thrown|]] eqn:Hh.
      * rewrite (resume_rejected_custom_throws _ _ _ _ _ _ _ Hfr Hrb Hh). fields.
        by eexists _, _, (Rejected thrown).
      * rewrite (resume_rejected_custom _ _ _ _ _ _ Hfr Hrb Hh).
        rewrite setStatus_spec, setError_spec. fields. rewrite <- !app_assoc.
        by eexists _, _, (Rejected err).
    + rewrite (resume_rejected_auto _ _ _ _ Hfr Hrb).
      rewrite write_sources_spec, setStatus_spec, setError_spec. fields.
      rewrite <- !app_assoc. by eexists _, _, (Rejected err).
Qed.

Lemma invariant_initial objs σ : invariant objs (initial σ).
Proof. by constructor; simpl; intros *; rewrite ?lookup_empty. Qed.

Lemma invariant_cell objs st l v :
  invariant objs st → invariant objs (set_cells (<[l := v]> (cells st)) st).
Proof. intros [? ? ? ? ?]. by constructor. Qed.

Lemma finally_block_cases k st :
  (∃ n, 0 < n ∧ inFlightCount (finally_block k st) = <[k := n]> (inFlightCount st)
        ∧ inFlightPromise (finally_block k st) = inFlightPromise st)
  ∨ (inFlightCount (finally_block k st) = delete k (inFlightCount st)
     ∧ inFlightPromise (finally_block k st) = delete k (inFlightPromise st)).
Proof. unfold finally_block. case_decide; [left; eauto | by right]. Qed.

Lemma invariant_resume objs st p outcome :
  invariant objs st → is_Some (awaiting st !! p) → invariant objs (resume p outcome st).
Proof.
  intros [Hcnt Huns Hobj Hign Hsrc] [fr Hfr].
  destruct (resume_shape p outcome st fr Hfr) as (σ & es & s & Hs & ->).
  remember (mkState σ (inFlightCount st) (inFlightPromise st) (promises st)
              (delete p (awaiting st)) (log st ++ es)) as st' eqn:Est.
  pose proof (finally_block_cases (fr_opKey fr) st') as Hfb.
  pose proof (finally_block_promises (fr_opKey fr) st') as Hps.
  pose proof (finally_block_awaiting (fr_opKey fr) st') as Haw.
  assert (Hother : ∀ p0 fr0, delete p (awaiting st) !! p0 = Some fr0 →
            p0 ≠ p ∧ awaiting st !! p0 = Some fr0).
  { intros p0 fr0 [? ?]%lookup_delete_Some. split; [congruence | done]. }
  assert (Hprom : ∀ k p1,
            inFlightPromise (finally_block (fr_opKey fr) st') !! k = Some p1 →
            inFlightPromise st !! k = Some p1).
  { intros k p1. destruct Hfb as [(n & _ & _ & ->)|[_ ->]]; subst st'; simpl; [done|].
    by intros [_ ?]%lookup_delete_Some. }
  constructor; fields; rewrite ?Hps, ?Haw; subst st'; simpl in *.
  - intros k c. destruct Hfb as [(n & Hn & -> & _)|[-> _]].
    + intros [[_ <-]|[_ ?]]%lookup_insert_Some; eauto.
    + intros [_ ?]%lookup_delete_Some; eauto.
  - intros p0 fr0 [Hne H0]%Hother. rewrite list_lookup_insert_ne by done. eauto.
  - intros p0 fr0 [Hne H0]%Hother. eauto.
  - intros p0 fr0 [Hne H0]%Hother Hpol.
    destruct (Hign _ _ H0 Hpol) as [Hst Hc].
    assert (Hk : fr_opKey fr ≠ fr_opKey fr0).
    { intros Heq. apply Hne.
      pose proof (Hobj _ _ Hfr) as H1. pose proof (Hobj _ _ H0) as H2.
      rewrite Heq in H1. rewrite H1 in H2. injection H2 as H2.
      rewrite <- H2 in Hpol. destruct (Hign _ _ Hfr Hpol) as [Hst' _].
      rewrite Heq in Hst'. congruence. }
    destruct Hfb as [(n & _ & -> & ->)|[-> ->]].
    + by rewrite lookup_insert_ne.
    + by rewrite !lookup_delete_ne.
  - intros k op p1 Hop Hkeys Hp1%Hprom.
    pose proof (Hsrc _ _ _ Hop Hkeys Hp1) as Hrej.
    rewrite list_lookup_insert_ne; [done|].
    intros <-. rewrite (Huns _ _ Hfr) in Hrej. done.
Qed.

Lemma run_shape opKey op payload st :
  attached opKey op st = None →
  ∃ σ ps fs es,
    runOptimistic opKey op payload st =
      (length (promises st),
       mkState σ
         (<[opKey := default 0 (inFlightCount st !! opKey) + 1]> (inFlightCount st))
         (<[opKey := length (promises st)]> (inFlightPromise st))
         ps fs (log st ++ es))
    ∧ ((∃ e, ps = <[length (promises st) := Rejected e]> (promises st ++ [Unsettled])
             ∧ fs = awaiting st
             ∧ (Object_keys (sources op) = [] → e = ConfigurationError))
       ∨ (∃ optimistic snapshot,
             ps = promises st ++ [Unsettled]
             ∧ fs = <[length (promises st) := mkFrame opKey op payload optimistic snapshot]>
                      (awaiting st)
             ∧ Object_keys (sources op) ≠ [])).
Proof.
  intros Hatt.
  destruct (decide (Object_keys (sources op) = [])) as [Hkeys|Hkeys].
  - rewrite (runOptimistic_no_sources _ _ _ _ Hatt Hkeys).
    eexists _, _, _, []. rewrite app_nil_r. split; [done|]. left. eauto.
  - destruct (mutate op (prior_snapshot op st) payload) as [optimistic|e] eqn:Hmut.
    + rewrite (runOptimistic_started _ _ _ _ _ Hatt Hkeys Hmut).
      eexists _, _, _, _. split; [done|]. right. eauto.
    + rewrite (runOptimistic_mutate_throws _ _ _ _ _ Hatt Hkeys Hmut).
      eexists _, _, _, _. split; [done|]. left. eexists. by split_and!.
Qed.

Lemma attached_ignore opKey op st p c :
  concurrency op = Some ignore →
  inFlightPromise st !! opKey = Some p →
  inFlightCount st !! opKey = Some c →
  0 < c →
  attached opKey op st = Some p.
Proof.
  intros Hpol Hp Hc Hpos. unfold attached. rewrite Hpol, Hc. simpl.
  by case_decide.
Qed.

Lemma invariant_run objs st opKey op payload :
  invariant objs st → objs opKey = Some op →
  invariant objs (runOptimistic opKey op payload st).2.
Proof.
  intros Hinv Hop.
  destruct (attached opKey op st) as [existing|] eqn:Hatt.
  { by rewrite (runOptimistic_attached _ _ _ _ _ Hatt). }
  destruct (run_shape opKey op payload st Hatt) as (σ & ps & fs & es & -> & Hcase).
  destruct Hinv as [Hcnt Huns Hobj Hign Hsrc].
  assert (Hold : ∀ p0, is_Some (promises st !! p0) →
            p0 ≠ length (promises st)
            ∧ (promises st ++ [Unsettled]) !! p0 = promises st !! p0).
  { intros p0 [x Hx]. pose proof (lookup_lt_Some _ _ _ Hx).
    split; [lia|]. by rewrite lookup_app_l. }
  assert (Hnokey : ∀ p0 fr0, awaiting st !! p0 = Some fr0 →
            concurrency (fr_op fr0) = Some ignore → fr_opKey fr0 ≠ opKey).
  { intros p0 fr0 H0 Hpol <-.
    destruct (Hign _ _ H0 Hpol) as [Hst [c Hc]].
    pose proof (Hobj _ _ H0) as H1. rewrite Hop in H1. injection H1 as ->.
    rewrite (attached_ignore _ _ _ _ _ Hpol Hst Hc (Hcnt _ _ Hc)) in Hatt. done. }
  assert (Hpos : 0 < default 0 (inFlightCount st !! opKey) + 1).
  { destruct (inFlightCount st !! opKey) as [c|] eqn:Hc; simpl; [|lia].
    pose proof (Hcnt _ _ Hc). lia. }
  constructor; simpl.
  - intros k c [[_ <-]|[_ ?]]%lookup_insert_Some; eauto.
  - intros p0 fr0 H0.
    destruct Hcase as [(e & -> & -> & _)|(o & sn & -> & -> & _)].
    + destruct (Hold p0) as [Hne Heq]; [by rewrite (Huns _ _ H0)|].
      rewrite list_lookup_insert_ne by done. rewrite Heq. eauto.
    + apply lookup_insert_Some in H0 as [[<- _]|[Hne H0]].
      * by rewrite lookup_app_r, Nat.sub_diag.
      * destruct (Hold p0) as [_ Heq]; [by rewrite (Huns _ _ H0)|].
        rewrite Heq. eauto.
  - intros p0 fr0 H0.
    destruct Hcase as [(e & _ & -> & _)|(o & sn & _ & -> & _)]; [eauto|].
    apply lookup_insert_Some in H0 as [[_ <-]|[_ H0]]; [done | eauto].
  - intros p0 fr0 H0 Hpol.
    assert (Hnew : awaiting st !! p0 = Some fr0 →
              <[opKey := length (promises st)]> (inFlightPromise st) !! fr_opKey fr0 = Some p0
              ∧ is_Some (<[opKey := default 0 (inFlightCount st !! opKey) + 1]>
                           (inFlightCount st) !! fr_opKey fr0)).
    { intros H1. pose proof (Hnokey _ _ H1 Hpol) as Hne.
      rewrite !lookup_insert_ne by done. eauto. }
    destruct Hcase as [(e & _ & -> & _)|(o & sn & _ & -> & _)]; [eauto|].
    apply lookup_insert_Some in H0 as [[<- <-]|[_ H0]]; [|eauto].
    simpl. rewrite !lookup_insert_eq. eauto.
  - intros k op1 p1 Hop1 Hkeys H1.
    apply lookup_insert_Some in H1 as [[<- <-]|[Hne H1]].
    + rewrite Hop in Hop1. injection Hop1 as <-.
      destruct Hcase as [(e & -> & _ & He)|(o & sn & _ & _ & ?)]; [|done].
      rewrite (He Hkeys). apply list_lookup_insert_eq.
      rewrite length_app. simpl. lia.
    + pose proof (Hsrc _ _ _ Hop1 Hkeys H1) as Hrej.
      destruct (Hold p1) as [Hne1 Heq]; [by rewrite Hrej|].
      destruct Hcase as [(e & -> & _ & _)|(o & sn & -> & _ & _)].
      * rewrite list_lookup_insert_ne by done. by rewrite Heq.
      * by rewrite Heq.
Qed.

Lemma invariant_step objs st st' :
  invariant objs st → step objs st st' → invariant objs st'.
Proof.
  intros Hinv Hstep. destruct Hstep.
  - by apply invariant_run.
  - by apply invariant_resume.
  - by apply invariant_cell.
Qed.

Lemma invariant_reachable objs σ st :
  rtc (step objs) (initial σ) st → invariant objs st.
Proof.
  intros Hrtc.
  refine (rtc_ind_r (R := step objs) (λ st, invariant objs st) (initial σ) _ _ st Hrtc).
  - apply invariant_initial.
  - intros y z _ Hstep IH. by eapply invariant_step.
Qed.

(** *** The test-suite of [runOptimistic], replayed on the model *)

(** 'should apply optimistic update immediately', 'should rollback on
    error', 'should preserve error types when rethrowing'. *)
Example counter_run_rolls_back :
  let '(p, st1) := runOptimistic 7 (counter_op None None) (delta 5) (initial counter_cells) in
  cells st1 !! 0%nat = Some (VNum 15)
  ∧ cells (resume p (inr (VError "Request failed")) st1) !! 0%nat = Some (VNum 10)
  ∧ promises (resume p (inr (VError "Request failed")) st1) !! p
      = Some (Rejected (VError "Request failed")).
Proof. vm_compute. done. Qed.

(** 'should update status through lifecycle', 'should clear error on
    success', 'should return operation result'. *)
Example counter_status_lifecycle :
  let st0 := initial (<[1%nat := VStr "idle"]> (<[2%nat := VError "Previous error"]> counter_cells)) in
  let '(p, st1) := runOptimistic 7 (counter_op None None) (delta 1) st0 in
  cells st1 !! 1%nat = Some (VStr "pending")
  ∧ cells st1 !! 2%nat = Some VNull
  ∧ cells (resume p (inl (VStr "immediate")) st1) !! 1%nat = Some (VStr "success")
  ∧ cells (resume p (inl (VStr "immediate")) st1) !! 2%nat = Some VNull
  ∧ promises (resume p (inl (VStr "immediate")) st1) !! p = Some (Fulfilled (VStr "immediate")).
Proof. vm_compute. done. Qed.

(** 'should allow concurrent operations by default'. *)
Example allow_runs_both :
  let '(p1, st1) := runOptimistic 7 (counter_op None None) (delta 1) (initial counter_cells) in
  let '(p2, st2) := runOptimistic 7 (counter_op None None) (delta 2) st1 in
  p1 ≠ p2 ∧ operation_calls (log st2) = 2%nat ∧ cells st2 !! 0%nat = Some (VNum 13).
Proof. vm_compute. done. Qed.

(** 'should ignore concurrent operations when concurrency is "ignore"'. *)
Example ignore_runs_once :
  let '(p1, st1) :=
    runOptimistic 7 (counter_op (Some ignore) None) (delta 1) (initial counter_cells) in
  let '(p2, st2) := runOptimistic 7 (counter_op (Some ignore) None) (delta 2) st1 in
  p1 = p2 ∧ operation_calls (log st2) = 1%nat ∧ cells st2 !! 0%nat = Some (VNum 11).
Proof. vm_compute. done. Qed.

(** 'should allow new operations after previous completes with "ignore"'. *)
Example ignore_runs_again_after_settlement :
  let '(p1, st1) :=
    runOptimistic 7 (counter_op (Some ignore) None) (delta 1) (initial counter_cells) in
  let st2 := resume p1 (inl (VNum 1)) st1 in
  let '(p2, st3) := runOptimistic 7 (counter_op (Some ignore) None) (delta 2) st2 in
  inFlightCount st2 !! 7%nat = None
  ∧ p1 ≠ p2 ∧ operation_calls (log st3) = 2%nat ∧ cells st3 !! 0%nat = Some (VNum 13).
Proof. vm_compute. done. Qed.

(** 'should throw if no sources are provided'. *)
Example no_sources_throws :
  let '(p, st1) := runOptimistic 7 (no_sources_op None) VUndefined (initial counter_cells) in
  promises st1 !! p = Some (Rejected ConfigurationError) ∧ log st1 = [].
Proof. vm_compute. done. Qed.

(** A mutation that throws is not in the test-suite. Like the empty Source
    Set it ends the run before the [try], so counter and promise stay: under
    ['ignore'] a later call with a good payload gets the old rejection and
    the counter cell stays as it was. *)
Example throwing_mutation_keeps_bookkeeping :
  let '(p1, st1) :=
    runOptimistic 7 (counter_op (Some ignore) None) VUndefined (initial counter_cells) in
  let '(p2, st2) := runOptimistic 7 (counter_op (Some ignore) None) (delta 5) st1 in
  inFlightCount st1 !! 7%nat = Some 1
  ∧ p2 = p1
  ∧ promises st2 !! p2 = Some (Rejected (VError "Cannot read properties of undefined"))
  ∧ cells st2 !! 0%nat = Some (VNum 10).
Proof. vm_compute. done. Qed.

(** *** A suspended run across later steps of the host *)

Lemma step_later objs st st' :
  step objs st st' →
  (length (promises st) ≤ length (promises st'))%nat
  ∧ log st `prefix_of` log st'
  ∧ ∀ p fr, (p < length (promises st))%nat →
            awaiting st' !! p = Some fr → awaiting st !! p = Some fr.
Proof.
  intros Hstep. destruct Hstep as [opKey op payload st _|p outcome st [fr Hfr]|l v st].
  - destruct (attached opKey op st) as [existing|] eqn:Hatt.
    { by rewrite (runOptimistic_attached _ _ _ _ _ Hatt). }
    destruct (run_shape opKey op payload st Hatt) as (σ & ps & fs & es & -> & Hcase).
    simpl. split_and!.
    + destruct Hcase as [(e & -> & _)|(o & sn & -> & _)];
        rewrite ?length_insert, length_app; simpl; lia.
    + by apply prefix_app_r.
    + intros p fr Hlt.
      destruct Hcase as [(e & _ & -> & _)|(o & sn & _ & -> & _)]; [done|].
      rewrite lookup_insert_ne by lia. done.
  - destruct (resume_shape p outcome st fr Hfr) as (σ & es & s & _ & ->).
    fields. rewrite finally_block_promises, finally_block_awaiting, finally_block_log.
    simpl. split_and!.
    + by rewrite length_insert.
    + by apply prefix_app_r.
    + intros p0 fr0 _ [_ ?]%lookup_delete_Some. done.
  - simpl. by split_and!.
Qed.

Lemma steps_later objs st1 st2 :
  rtc (step objs) st1 st2 →
  (length (promises st1) ≤ length (promises st2))%nat
  ∧ log st1 `prefix_of` log st2
  ∧ ∀ p fr, (p < length (promises st1))%nat →
            awaiting st2 !! p = Some fr → awaiting st1 !! p = Some fr.
Proof.
  intros Hrtc.
  refine (rtc_ind_r (R := step objs)
            (λ st2, (length (promises st1) ≤ length (promises st2))%nat
                    ∧ log st1 `prefix_of` log st2
                    ∧ ∀ p fr, (p < length (promises st1))%nat →
                              awaiting st2 !! p = Some fr → awaiting st1 !! p = Some fr)
            st1 _ _ st2 Hrtc).
  - by split_and!.
  - intros y z _ Hstep (Hlen & Hlog & Hfr).
    destruct (step_later _ _ _ Hstep) as (Hlen' & Hlog' & Hfr').
    split_and!.
    + lia.
    + by etrans.
    + intros p fr Hlt Hz. apply Hfr; [done|]. apply Hfr'; [lia | done].
Qed.

(** A run that got to its [await] and has not been resumed since still has
    the frame it was suspended with. *)
Lemma suspended_later objs opKey op payload st optimistic p st1 st2 :
  attached opKey op st = None →
  Object_keys (sources op) ≠ [] →
  mutate op (prior_snapshot op st) payload = Normal optimistic →
  runOptimistic opKey op payload st = (p, st1) →
  rtc (step objs) st1 st2 →
  is_Some (awaiting st2 !! p) →
  awaiting st2 !! p = Some (mkFrame opKey op payload optimistic (prior_snapshot op st))
  ∧ (p < length (promises st2))%nat
  ∧ log st1 `prefix_of` log st2.
Proof.
  intros Hatt Hkeys Hmut Hrun Hrtc [fr Hfr].
  rewrite (runOptimistic_started _ _ _ _ _ Hatt Hkeys Hmut) in Hrun.
  injection Hrun as <- <-.
  destruct (steps_later _ _ _ Hrtc) as (Hlen & Hlog & Hback).
  simpl in *. rewrite length_app in *. simpl in *.
  split_and!; [|lia|done].
  rewrite Hfr. f_equal.
  specialize (Hback (length (promises st)) fr ltac:(lia) Hfr).
  rewrite lookup_insert_eq in Hback. congruence.
Qed.

(** *** What the snapshot holds *)

Lemma snapshot_into_lookup srcs keys snapshot σ key ref :
  key ∈ keys ∨ snapshot !! key = Some (readTarget ref σ) →
  sources_get srcs key = Some ref →
  snapshot_into srcs keys snapshot σ !! key = Some (readTarget ref σ).
Proof.
  revert snapshot. induction keys as [|k keys IH]; intros snapshot Hin Hget; simpl.
  - destruct Hin as [Hin|Hin]; [by apply elem_of_nil in Hin | done].
  - destruct (decide (k = key)) as [->|Hne].
    + rewrite Hget. apply IH; [|done]. right. apply lookup_insert_eq.
    + assert (Hin' : ∀ v, key ∈ keys ∨ <[k := v]> snapshot !! key = Some (readTarget ref σ)).
      { intros v. destruct Hin as [[->|Hin]%elem_of_cons|Hin]; [done | by left |].
        right. by rewrite lookup_insert_ne. }
      destruct (sources_get srcs k) as [r|]; [by apply IH|].
      apply IH; [|done].
      destruct Hin as [[->|Hin]%elem_of_cons|Hin]; [done | by left | by right].
Qed.

Lemma prior_snapshot_get op st key ref :
  sources_get (sources op) key = Some ref →
  snapshot_get (prior_snapshot op st) key = cells st !!! target_cell ref.
Proof.
  intros Hget. rewrite prior_snapshot_cells. unfold snapshot_get.
  rewrite (snapshot_into_lookup _ _ _ _ _ ref); [|left|done].
  - simpl. apply readTarget_lookup.
  - by eapply sources_get_in_keys.
Qed.

(** *** Cells that are apart *)

Lemma source_cell_elem op key ref :
  sources_get (sources op) key = Some ref → target_cell ref ∈ source_cells op.
Proof.
  intros H%sources_get_elem. unfold source_cells.
  apply list_elem_of_fmap. by exists (key, ref).
Qed.

Lemma distinct_sources_key op k1 k2 r1 r2 :
  distinct_sources op →
  sources_get (sources op) k1 = Some r1 →
  sources_get (sources op) k2 = Some r2 →
  target_cell r1 = target_cell r2 → k1 = k2.
Proof.
  unfold distinct_sources, source_cells.
  intros Hnd H1%sources_get_elem H2%sources_get_elem Heq.
  apply list_elem_of_lookup in H1 as [i Hi]. apply list_elem_of_lookup in H2 as [j Hj].
  assert (i = j) as ->.
  { eapply NoDup_lookup; [exact Hnd | |].
    - rewrite list_lookup_fmap, Hi. reflexivity.
    - rewrite list_lookup_fmap, Hj. simpl. by rewrite Heq. }
  congruence.
Qed.

Lemma setTarget_other ref v σ l :
  (∀ r, ref = Some r → target_cell r ≠ l) → setTarget ref v σ !! l = σ !! l.
Proof.
  intros H. destruct ref as [r|]; [|done]. simpl.
  rewrite writeTarget_insert. apply lookup_insert_ne. by apply H.
Qed.

Lemma setTarget_hit r v σ : setTarget (Some r) v σ !! target_cell r = Some v.
Proof. simpl. rewrite writeTarget_insert. apply lookup_insert_eq. Qed.

Lemma targets_off_status op l r :
  targets_off_sources op → l ∈ source_cells op → status op = Some r → target_cell r ≠ l.
Proof.
  unfold targets_off_sources, target_cells. intros Hoff Hl Hr Heq. subst l.
  rewrite Forall_forall in Hoff. apply (Hoff (target_cell r)); [|done].
  rewrite Hr. simpl. apply list_elem_of_here.
Qed.

Lemma targets_off_error op l r :
  targets_off_sources op → l ∈ source_cells op → error op = Some r → target_cell r ≠ l.
Proof.
  unfold targets_off_sources, target_cells. intros Hoff Hl Hr Heq. subst l.
  rewrite Forall_forall in Hoff. apply (Hoff (target_cell r)); [|done].
  rewrite Hr. apply elem_of_app. right. simpl. apply list_elem_of_here.
Qed.

(** * The executor's properties *)

(** ** A run that reached its confirming operation

    The shared setting of the next statements: a call of [runOptimistic] in
    [st] on a descriptor with sources gets through the concurrency gate,
    its mutation returns [optimistic], and the call returns promise [p] in
    state [st1]; [st2] is any later state of the host (other calls, other
    settlements, writes to cells by other code) in which this run is still
    suspended on its confirming operation. *)
Section Run.

Variable objs : nat → option OptimisticOperation.
Variables (opKey : nat) (op : OptimisticOperation) (payload : value).
Variables (st st1 st2 : state) (optimistic : gmap string value) (p : nat).

Hypothesis some_source : Object_keys (sources op) ≠ [].
Hypothesis gate_open : attached opKey op st = None.
Hypothesis mutated : mutate op (prior_snapshot op st) payload = Normal optimistic.
Hypothesis called : runOptimistic opKey op payload st = (p, st1).
Hypothesis later : rtc (step objs) st1 st2.
Hypothesis suspended : is_Some (awaiting st2 !! p).

Local Abbreviation keys := (Object_keys (sources op)).
Local Abbreviation snapshot := (prior_snapshot op st).

Lemma run_frame :
  awaiting st2 !! p = Some (mkFrame opKey op payload optimistic snapshot).
Proof. by destruct (suspended_later objs _ _ _ _ _ _ _ _ gate_open some_source mutated called later). Qed.

Lemma run_promise_allocated : (p < length (promises st2))%nat.
Proof. by destruct (suspended_later objs _ _ _ _ _ _ _ _ gate_open some_source mutated called later) as (_ & ? & _). Qed.

Lemma run_log_prefix : log st1 `prefix_of` log st2.
Proof.
  by destruct (suspended_later objs _ _ _ _ _ _ _ _
                 gate_open some_source mutated called later suspended) as (_ & _ & ?).
Qed.

Lemma run_state :
  st1 = mkState
          (setTarget (error op) VNull
             (setTarget (status op) (status_value Pending)
                (write_cells (sources op) keys optimistic (cells st))))
          (<[opKey := default 0 (inFlightCount st !! opKey) + 1]> (inFlightCount st))
          (<[opKey := length (promises st)]> (inFlightPromise st))
          (promises st ++ [Unsettled])
          (<[length (promises st) := mkFrame opKey op payload optimistic snapshot]>
             (awaiting st))
          (log st ++ read_events (sources op) keys (cells st)
                  ++ [EvMutate snapshot payload]
                  ++ write_events (sources op) keys optimistic
                  ++ status_events (status op) Pending
                  ++ error_events (error op) VNull
                  ++ [EvOperation opKey (mkOperationCtx payload optimistic snapshot)]).
Proof.
  pose proof called as H.
  rewrite (runOptimistic_started _ _ _ _ _ gate_open some_source mutated) in H.
  congruence.
Qed.

(** After the Apply step every source cell holds the optimistic value of
    its key. *)
Lemma applied_cells key ref :
  distinct_sources op →
  sources_get (sources op) key = Some ref →
  write_cells (sources op) keys optimistic (cells st) !! target_cell ref
    = Some (snapshot_get optimistic key).
Proof.
  intros Hnd Hget. apply write_cells_hit; [left | done |].
  - by eapply sources_get_in_keys.
  - intros key' ref' _ Hget' Hcell.
    by rewrite (distinct_sources_key _ _ _ _ _ Hnd Hget' Hget Hcell).
Qed.

(** C1. Success keeps the optimistic values: when the Source Set names
    distinct cells, none of them the status or the error cell, and no other
    code wrote them while the run was suspended, then on a resolved
    confirming operation the promise of the run is fulfilled with the
    operation's result and every source cell holds the value the mutation
    computed for its key, as it did right after the call. No source cell is
    written after the Apply step: the call goes on with the status and
    error writes and the call of the confirming operation, and the
    continuation writes the status target and nothing else. *)
Theorem C1_success_keeps_optimistic (result : value) :
  distinct_sources op →
  targets_off_sources op →
  (∀ l, l ∈ source_cells op → cells st2 !! l = cells st1 !! l) →
  promises (resume p (inl result) st2) !! p = Some (Fulfilled result)
  ∧ (∀ key ref, sources_get (sources op) key = Some ref →
       cells st1 !! target_cell ref = Some (snapshot_get optimistic key)
       ∧ cells (resume p (inl result) st2) !! target_cell ref
           = Some (snapshot_get optimistic key))
  ∧ log st1
      = log st ++ read_events (sources op) keys (cells st)
               ++ [EvMutate snapshot payload]
               ++ write_events (sources op) keys optimistic
               ++ status_events (status op) Pending
               ++ error_events (error op) VNull
               ++ [EvOperation opKey (mkOperationCtx payload optimistic snapshot)]
  ∧ cells (resume p (inl result) st2)
      = setTarget (status op) (status_value Success) (cells st2)
  ∧ log (resume p (inl result) st2) = log st2 ++ status_events (status op) Success.
Proof.
  intros Hnd Hoff Hquiet.
  rewrite (resume_resolved _ _ _ _ run_frame), setStatus_spec. fields.
  rewrite finally_block_promises, finally_block_cells, finally_block_log. simpl.
  assert (Hst1 : ∀ key ref, sources_get (sources op) key = Some ref →
            cells st1 !! target_cell ref = Some (snapshot_get optimistic key)).
  { intros key ref Hget. rewrite run_state. simpl.
    pose proof (source_cell_elem _ _ _ Hget) as Hin.
    rewrite !setTarget_other; [by apply applied_cells | |].
    - intros r Hr. by eapply targets_off_status.
    - intros r Hr. by eapply targets_off_error. }
  split_and!; [|intros key ref Hget; split; [by apply Hst1|] |by rewrite run_state|done|done].
  - apply list_lookup_insert_eq, run_promise_allocated.
  - pose proof (source_cell_elem _ _ _ Hget) as Hin.
    rewrite setTarget_other; [|intros r Hr; by eapply targets_off_status].
    rewrite (Hquiet _ Hin). by apply Hst1.
Qed.

(** C2. Failure without a custom rollback restores the prior values: when
    the status and error cells are not cells of the Source Set, then on a
    rejected confirming operation every source cell ends at the value it
    held in [st], where the run started, whatever [optimistic] was and
    whatever was written to the cells since; the continuation writes every
    key's prior value back, then the status and the error. *)
Theorem C2_failure_restores_prior (err : value) :
  rollback op = None →
  targets_off_sources op →
  (∀ key ref, sources_get (sources op) key = Some ref →
     cells (resume p (inr err) st2) !!! target_cell ref = cells st !!! target_cell ref)
  ∧ log (resume p (inr err) st2)
      = log st2 ++ write_events (sources op) keys snapshot
               ++ status_events (status op) Error
               ++ error_events (error op) err.
Proof.
  intros Hrb Hoff.
  rewrite (resume_rejected_auto _ _ _ _ run_frame Hrb).
  rewrite write_sources_spec, setStatus_spec, setError_spec. fields.
  rewrite finally_block_cells, finally_block_log. simpl.
  split; [|by rewrite <- !app_assoc].
  intros key ref Hget.
  pose proof (source_cell_elem _ _ _ Hget) as Hin.
  rewrite !lookup_total_alt.
  rewrite !setTarget_other.
  - rewrite (write_cells_hit _ _ _ _ key ref); [|left|done|].
    + simpl. rewrite (prior_snapshot_get _ _ _ _ Hget). by rewrite lookup_total_alt.
    + by eapply sources_get_in_keys.
    + intros key' ref' _ Hget' Hcell.
      rewrite (prior_snapshot_get _ _ _ _ Hget'), (prior_snapshot_get _ _ _ _ Hget).
      by rewrite Hcell.
  - intros r Hr. by eapply targets_off_status.
  - intros r Hr. by eapply targets_off_error.
Qed.

(** The continuation on a rejected confirming operation, when a custom
    handler (if any) returns. *)
Lemma rejected_state (err : value) :
  (∀ handler, rollback op = Some handler →
     (handler (mkRollbackCtx payload optimistic snapshot err) (cells st2)).2 = None) →
  ∃ σ,
    resume p (inr err) st2 =
      settle p (Rejected err)
        (finally_block opKey
           (mkState (setTarget (error op) err (setTarget (status op) (status_value Error) σ))
              (inFlightCount st2) (inFlightPromise st2) (promises st2)
              (delete p (awaiting st2))
              (log st2
               ++ match rollback op with
                  | Some _ => [EvRollback opKey (mkRollbackCtx payload optimistic snapshot err)]
                  | None => write_events (sources op) keys snapshot
                  end
               ++ status_events (status op) Error
               ++ error_events (error op) err))).
Proof.
  intros Hret. destruct (rollback op) as [handler|] eqn:Hrb.
  - specialize (Hret handler eq_refl).
    destruct (handler (mkRollbackCtx payload optimistic snapshot err) (cells st2))
      as [σ thrown] eqn:Hh.
    simpl in Hret. subst thrown.
    rewrite (resume_rejected_custom _ _ _ _ handler σ run_frame Hrb Hh).
    rewrite setStatus_spec, setError_spec. fields. simpl.
    rewrite <- !app_assoc. by eexists.
  - rewrite (resume_rejected_auto _ _ _ _ run_frame Hrb).
    rewrite write_sources_spec, setStatus_spec, setError_spec. fields. simpl.
    rewrite <- !app_assoc. by eexists.
Qed.

(** C4. A failure is reported and re-thrown unchanged: on a confirming
    operation rejected with [err], once the rollback is done (a custom
    handler, when there is one, returns), the continuation writes ['error']
    to the status target and then [err] to the error target, nothing after
    them, and the promise of the run is rejected with [err] itself. *)
Theorem C4_failure_reported (err : value) :
  (∀ handler, rollback op = Some handler →
     (handler (mkRollbackCtx payload optimistic snapshot err) (cells st2)).2 = None) →
  promises (resume p (inr err) st2) !! p = Some (Rejected err)
  ∧ log (resume p (inr err) st2)
      = log st2
        ++ match rollback op with
           | Some _ => [EvRollback opKey (mkRollbackCtx payload optimistic snapshot err)]
           | None => write_events (sources op) keys snapshot
           end
        ++ status_events (status op) Error
        ++ error_events (error op) err
  ∧ (∀ r, error op = Some r →
       cells (resume p (inr err) st2) !! target_cell r = Some err)
  ∧ (∀ r, status op = Some r →
       (∀ r', error op = Some r' → target_cell r' ≠ target_cell r) →
       cells (resume p (inr err) st2) !! target_cell r = Some (status_value Error)).
Proof.
  intros Hret. destruct (rejected_state err Hret) as [σ ->]. fields.
  rewrite finally_block_promises, finally_block_cells, finally_block_log. simpl.
  split_and!.
  - apply list_lookup_insert_eq, run_promise_allocated.
  - done.
  - intros r ->. apply setTarget_hit.
  - intros r -> Hapart. rewrite setTarget_other by done. apply setTarget_hit.
Qed.

(** C6. ['pending'] is announced after the optimistic write and before the
    terminal status. With a status target [r], the log of the run up to its
    terminal status write reads: the reads of step 1, the mutation, one
    write per key of the optimistic value, then ['pending'], immediately
    followed by the clearing of the error target (when there is one), and
    only later the terminal ['success'] or ['error'] (given that a custom
    rollback handler returns). These writes are writes of the store: the
    store the call leaves is the one the Apply loop left, with ['pending']
    in the status cell and then [null] in the error cell. So when the call
    has returned the error cell holds [null] and the status cell holds
    ['pending'] (an error target on the same cell apart); when the keys
    name distinct cells, none of them the status or the error cell, every
    source cell holds its optimistic value after the Apply loop, at the
    ['pending'] write and when the call has returned; and after the
    continuation the status cell holds the terminal status. *)
Theorem C6_pending_after_apply (r : WritableTarget) (outcome : value + value) :
  status op = Some r →
  (∀ handler err, rollback op = Some handler → outcome = inr err →
     (handler (mkRollbackCtx payload optimistic snapshot err) (cells st2)).2 = None) →
  (∃ between after,
     log (resume p outcome st2)
       = log st
         ++ read_events (sources op) keys (cells st)
         ++ [EvMutate snapshot payload]
         ++ write_events (sources op) keys optimistic
         ++ [EvStatus (target_cell r) Pending]
         ++ error_events (error op) VNull
         ++ between
         ++ [EvStatus (target_cell r) (if outcome is inl _ then Success else Error)]
         ++ after)
  ∧ cells st1
      = match error op with
        | Some e =>
            <[target_cell e := VNull]>
              (<[target_cell r := VStr "pending"]>
                 (write_cells (sources op) keys optimistic (cells st)))
        | None =>
            <[target_cell r := VStr "pending"]>
              (write_cells (sources op) keys optimistic (cells st))
        end
  ∧ (distinct_sources op →
     ∀ key ref, sources_get (sources op) key = Some ref →
       write_cells (sources op) keys optimistic (cells st) !! target_cell ref
         = Some (snapshot_get optimistic key))
  ∧ ((∀ e, error op = Some e → target_cell e ≠ target_cell r) →
     cells st1 !! target_cell r = Some (VStr "pending"))
  ∧ (∀ e, error op = Some e → cells st1 !! target_cell e = Some VNull)
  ∧ (distinct_sources op → targets_off_sources op →
     ∀ key ref, sources_get (sources op) key = Some ref →
       <[target_cell r := VStr "pending"]>
         (write_cells (sources op) keys optimistic (cells st)) !! target_cell ref
         = Some (snapshot_get optimistic key)
       ∧ cells st1 !! target_cell ref = Some (snapshot_get optimistic key))
  ∧ ((∀ e, error op = Some e → target_cell e ≠ target_cell r) →
     cells (resume p outcome st2) !! target_cell r
       = Some (VStr (if outcome is inl _ then "success" else "error"))).
Proof.
  intros Hstatus Hret.
  assert (Hcells : cells st1
            = match error op with
              | Some e =>
                  <[target_cell e := VNull]>
                    (<[target_cell r := VStr "pending"]>
                       (write_cells (sources op) keys optimistic (cells st)))
              | None =>
                  <[target_cell r := VStr "pending"]>
                    (write_cells (sources op) keys optimistic (cells st))
              end).
  { rewrite run_state. cbn [cells]. rewrite Hstatus.
    destruct (error op) as [e|]; simpl; by rewrite !writeTarget_insert. }
  assert (Hsrc : distinct_sources op → targets_off_sources op →
            ∀ key ref, sources_get (sources op) key = Some ref →
              <[target_cell r := VStr "pending"]>
                (write_cells (sources op) keys optimistic (cells st)) !! target_cell ref
              = Some (snapshot_get optimistic key)).
  { intros Hnd Hoff key ref Hget.
    rewrite lookup_insert_ne; [by apply applied_cells|].
    eapply targets_off_status; [done | by eapply source_cell_elem | done]. }
  split_and!.
  - destruct run_log_prefix as [since Hsince].
    rewrite run_state in Hsince. simpl in Hsince.
    rewrite Hstatus in Hsince. simpl in Hsince.
    destruct outcome as [result|err].
    + rewrite (resume_resolved _ _ _ _ run_frame), setStatus_spec. fields.
      rewrite finally_block_log. simpl. rewrite Hstatus, Hsince. simpl.
      exists (EvOperation opKey (mkOperationCtx payload optimistic snapshot) :: since), [].
      by repeat (rewrite <- app_assoc; simpl).
    + destruct (rejected_state err) as [σ ->].
      { intros handler Hrb. by eapply Hret. }
      fields. rewrite finally_block_log. simpl.
      rewrite Hstatus, Hsince. simpl.
      exists (EvOperation opKey (mkOperationCtx payload optimistic snapshot) :: since
              ++ match rollback op with
                 | Some _ => [EvRollback opKey (mkRollbackCtx payload optimistic snapshot err)]
                 | None => write_events (sources op) keys snapshot
                 end),
             (error_events (error op) err).
      by repeat (rewrite <- app_assoc; simpl).
  - exact Hcells.
  - by intros; apply applied_cells.
  - intros Hapart. rewrite Hcells. destruct (error op) as [e|].
    + rewrite lookup_insert_ne by (by apply Hapart). apply lookup_insert_eq.
    + apply lookup_insert_eq.
  - intros e He. rewrite Hcells, He. apply lookup_insert_eq.
  - intros Hnd Hoff key ref Hget. split; [by apply Hsrc|].
    rewrite Hcells. destruct (error op) as [e|] eqn:He; [|by apply Hsrc].
    rewrite lookup_insert_ne; [by apply Hsrc|].
    eapply targets_off_error; [done | by eapply source_cell_elem | done].
  - intros Hapart. destruct outcome as [result|err].
    + rewrite (resume_resolved _ _ _ _ run_frame), setStatus_spec. fields.
      rewrite finally_block_cells. cbn [cells fr_op]. rewrite Hstatus.
      apply setTarget_hit.
    + destruct (rejected_state err) as [σ ->].
      { intros handler Hrb. by eapply Hret. }
      fields. rewrite finally_block_cells. cbn [cells].
      rewrite setTarget_other by done. rewrite Hstatus. apply setTarget_hit.
Qed.

(** C7. A custom rollback handler replaces the automatic reversal: on a
    rejected confirming operation the continuation calls the handler once,
    with the payload, the optimistic snapshot, the prior snapshot and the
    failure value, and writes no source cell itself: its only other events
    are the status and error writes that follow a handler that returned
    (the synchronous part of the run has no call of the handler). Every
    cell but the status and error cells ends as the handler left it. *)
Theorem C7_custom_rollback_only (err : value) (handler : RollbackHandler) :
  rollback op = Some handler →
  let ctx := mkRollbackCtx payload optimistic snapshot err in
  let handled := handler ctx (cells st2) in
  log (resume p (inr err) st2)
    = log st2 ++ [EvRollback opKey ctx]
        ++ (if handled.2 is None
            then status_events (status op) Error ++ error_events (error op) err
            else [])
  ∧ log st1
      = log st ++ read_events (sources op) keys (cells st)
               ++ [EvMutate snapshot payload]
               ++ write_events (sources op) keys optimistic
               ++ status_events (status op) Pending
               ++ error_events (error op) VNull
               ++ [EvOperation opKey (mkOperationCtx payload optimistic snapshot)]
  ∧ cells (resume p (inr err) st2)
      = (if handled.2 is None
         then setTarget (error op) err (setTarget (status op) (status_value Error) handled.1)
         else handled.1)
  ∧ (∀ l, l ∉ target_cells op → cells (resume p (inr err) st2) !! l = handled.1 !! l).
Proof.
  intros Hrb ctx handled.
  assert (Hcells : cells (resume p (inr err) st2)
           = (if handled.2 is None
              then setTarget (error op) err
                     (setTarget (status op) (status_value Error) handled.1)
              else handled.1)
         ∧ log (resume p (inr err) st2)
           = log st2 ++ [EvRollback opKey ctx]
               ++ (if handled.2 is None
                   then status_events (status op) Error ++ error_events (error op) err
                   else [])).
  { subst handled ctx.
    destruct (handler (mkRollbackCtx payload optimistic snapshot err) (cells st2))
      as [σ [thrown|]] eqn:Hh.
    - rewrite (resume_rejected_custom_throws _ _ _ _ handler σ thrown run_frame Hrb Hh).
      fields. rewrite finally_block_cells, finally_block_log. by simpl.
    - rewrite (resume_rejected_custom _ _ _ _ handler σ run_frame Hrb Hh).
      rewrite setStatus_spec, setError_spec. fields.
      rewrite finally_block_cells, finally_block_log. simpl.
      by rewrite <- !app_assoc. }
  destruct Hcells as [Hcells Hlog]. split_and!; [done | by rewrite run_state | done |].
  intros l Hl. rewrite Hcells. destruct (handled.2); [done|].
  unfold target_cells in Hl. apply not_elem_of_app in Hl as [Hs He].
  rewrite !setTarget_other; [done | |].
  - intros r Hr Heq. subst l. apply Hs. rewrite Hr. simpl. apply list_elem_of_here.
  - intros r Hr Heq. subst l. apply He. rewrite Hr. simpl. apply list_elem_of_here.
Qed.

End Run.

(** ** The concurrency gate *)

Lemma attached_stored opKey op st existing :
  attached opKey op st = Some existing → inFlightPromise st !! opKey = Some existing.
Proof.
  unfold attached. destruct (default allow (concurrency op)); [done|].
  by case_decide.
Qed.

(** C3. Under ['ignore'] a call made while a run of the same descriptor is
    suspended on its confirming operation starts nothing: in every state
    the host can reach, it returns the promise of the suspended run and
    leaves the state as it was: no cell read or written, no mutation, no
    status or error write, no call of the confirming operation, no change
    to the bookkeeping. Both callers hold the one promise, so they get the
    one settlement. *)
Theorem C3_ignore_attaches_to_run_in_flight
    (objs : nat → option OptimisticOperation) (σ : gmap nat value) (st : state)
    (opKey : nat) (op : OptimisticOperation) (payload : value) (p : nat) (fr : frame) :
  rtc (step objs) (initial σ) st →
  objs opKey = Some op →
  concurrency op = Some ignore →
  awaiting st !! p = Some fr →
  fr_opKey fr = opKey →
  runOptimistic opKey op payload st = (p, st).
Proof.
  intros Hreach Hop Hpol Hfr Hkey.
  destruct (invariant_reachable _ _ _ Hreach) as [Hcnt _ Hobj Hign _].
  pose proof (Hobj _ _ Hfr) as Hsame. rewrite Hkey, Hop in Hsame.
  injection Hsame as Hsame. rewrite Hsame in Hpol.
  destruct (Hign _ _ Hfr Hpol) as [Hstored [c Hc]]. rewrite Hkey in *.
  apply runOptimistic_attached.
  apply (attached_ignore _ _ _ _ c); [by rewrite Hsame | done | done | by eapply Hcnt].
Qed.

(** ** Calls that fail before the confirming operation *)

(** C8. A descriptor without sources: in every state the host can reach,
    the promise the call returns is rejected with the error whose message
    names the missing source, and the call reads and writes no cell and no
    status or error target. *)
Theorem C8_no_sources_rejected
    (objs : nat → option OptimisticOperation) (σ : gmap nat value) (st : state)
    (opKey : nat) (op : OptimisticOperation) (payload : value) :
  rtc (step objs) (initial σ) st →
  objs opKey = Some op →
  Object_keys (sources op) = [] →
  promises (runOptimistic opKey op payload st).2 !! (runOptimistic opKey op payload st).1
    = Some (Rejected (VError "runOptimistic requires at least one source to update."))
  ∧ cells (runOptimistic opKey op payload st).2 = cells st
  ∧ log (runOptimistic opKey op payload st).2 = log st.
Proof.
  intros Hreach Hop Hkeys.
  destruct (invariant_reachable _ _ _ Hreach) as [_ _ _ _ Hsrc].
  destruct (attached opKey op st) as [existing|] eqn:Hatt.
  - rewrite (runOptimistic_attached _ _ _ _ _ Hatt). simpl.
    split_and!; [|done|done].
    apply (Hsrc _ _ _ Hop Hkeys), (attached_stored _ _ _ _ Hatt).
  - rewrite (runOptimistic_no_sources _ _ _ _ Hatt Hkeys). simpl.
    split_and!; [|done|done].
    apply list_lookup_insert_eq. rewrite length_app. simpl. lia.
Qed.

(** C9. A mutation that throws: the promise the call returns is rejected
    with the thrown value; the call has read the sources and called the
    mutation and nothing else: no cell is changed, no status or error
    write is made, and no continuation is left that could make one. *)
Theorem C9_mutate_throws_writes_nothing
    (opKey : nat) (op : OptimisticOperation) (payload : value) (st : state) (e : value) :
  Object_keys (sources op) ≠ [] →
  attached opKey op st = None →
  mutate op (prior_snapshot op st) payload = Throw e →
  promises (runOptimistic opKey op payload st).2 !! (runOptimistic opKey op payload st).1
    = Some (Rejected e)
  ∧ cells (runOptimistic opKey op payload st).2 = cells st
  ∧ log (runOptimistic opKey op payload st).2
      = log st ++ read_events (sources op) (Object_keys (sources op)) (cells st)
               ++ [EvMutate (prior_snapshot op st) payload]
  ∧ awaiting (runOptimistic opKey op payload st).2 = awaiting st.
Proof.
  intros Hkeys Hatt Hmut.
  rewrite (runOptimistic_mutate_throws _ _ _ _ _ Hatt Hkeys Hmut). simpl.
  split_and!; try done.
  apply list_lookup_insert_eq. rewrite length_app. simpl. lia.
Qed.

(** ** Calls under ['allow'] *)

Lemma operation_calls_app es es' :
  operation_calls (es ++ es') = (operation_calls es + operation_calls es')%nat.
Proof. unfold operation_calls. by rewrite filter_app, length_app. Qed.

Lemma operation_calls_none es :
  Forall (λ e, is_operation_call e = false) es → operation_calls es = 0%nat.
Proof.
  unfold operation_calls. induction 1 as [|e es He _ IH]; [done|].
  rewrite filter_cons_False; [done|]. by rewrite He.
Qed.

Lemma operation_calls_reads srcs keys σ : operation_calls (read_events srcs keys σ) = 0%nat.
Proof.
  apply operation_calls_none. induction keys as [|k keys IH]; [constructor|].
  unfold read_events, read_event in *. simpl.
  destruct (sources_get srcs k); simpl; [by constructor | done].
Qed.

Lemma operation_calls_writes srcs keys values :
  operation_calls (write_events srcs keys values) = 0%nat.
Proof.
  apply operation_calls_none. induction keys as [|k keys IH]; [constructor|].
  unfold write_events, write_event in *. simpl.
  destruct (sources_get srcs k); simpl; [by constructor | done].
Qed.

(** X2. Under ['allow'], the default, every call on a descriptor with
    sources whose mutation returns starts a run of its own, whatever is in
    flight: it returns a promise that did not exist before, unsettled, and
    calls the confirming operation once. *)
Theorem X2_allow_runs_every_call
    (opKey : nat) (op : OptimisticOperation) (payload : value) (st : state)
    (optimistic : gmap string value) :
  default allow (concurrency op) = allow →
  Object_keys (sources op) ≠ [] →
  mutate op (prior_snapshot op st) payload = Normal optimistic →
  promises st !! (runOptimistic opKey op payload st).1 = None
  ∧ promises (runOptimistic opKey op payload st).2 !! (runOptimistic opKey op payload st).1
    = Some Unsettled
  ∧ operation_calls (log (runOptimistic opKey op payload st).2)
    = S (operation_calls (log st)).
Proof.
  intros Hpol Hkeys Hmut.
  assert (Hatt : attached opKey op st = None).
  { unfold attached. by rewrite Hpol. }
  rewrite (runOptimistic_started _ _ _ _ _ Hatt Hkeys Hmut). fields.
  split_and!.
  - apply lookup_ge_None. lia.
  - by rewrite lookup_app_r, Nat.sub_diag.
  - rewrite !operation_calls_app, operation_calls_reads, operation_calls_writes.
    assert (operation_calls (status_events (status op) Pending) = 0%nat) as ->
      by by destruct (status op).
    assert (operation_calls (error_events (error op) VNull) = 0%nat) as ->
      by by destruct (error op).
    change (operation_calls [EvMutate (prior_snapshot op st) payload]) with 0%nat.
    change (operation_calls
              [EvOperation opKey (mkOperationCtx payload optimistic (prior_snapshot op st))])
      with 1%nat.
    lia.
Qed.

(** ** The [finally] block *)

(** X1. When a run that reached its confirming operation settles, whatever
    the outcome, the counter of its descriptor goes down by one, and
    counter and stored promise are removed when it was the last. *)
Theorem X1_settled_run_decrements p outcome st fr :
  awaiting st !! p = Some fr →
  let k := fr_opKey fr in
  let nextActive := default 1 (inFlightCount st !! k) - 1 in
  (0 < nextActive →
     inFlightCount (resume p outcome st) !! k = Some nextActive
     ∧ inFlightPromise (resume p outcome st) !! k = inFlightPromise st !! k)
  ∧ (¬ 0 < nextActive →
     inFlightCount (resume p outcome st) !! k = None
     ∧ inFlightPromise (resume p outcome st) !! k = None).
Proof.
  intros Hfr k nextActive.
  destruct (resume_shape p outcome st fr Hfr) as (σ & es & s & _ & ->).
  fields. unfold finally_block. fold k. simpl. fold nextActive.
  split; intros Hn; case_decide; try done; simpl.
  - by rewrite lookup_insert_eq.
  - by rewrite !lookup_delete_eq.
Qed.

(** C5, where the code leaves the claim. The [throw] for an empty Source
    Set comes after [inFlightCount.set] and before the [try], so the
    [finally] block is not run for it: after the call has ended in the
    rejected promise 0, the counter of the descriptor is still 1 and the
    rejected promise is still stored, and under ['ignore'] the next call
    for the descriptor gets that same promise back and starts nothing. *)
Theorem C5_configuration_error_skips_finally :
  let '(p, st1) := runOptimistic 7 (no_sources_op (Some ignore)) VUndefined (initial ∅) in
  p = 0%nat
  ∧ promises st1 !! p = Some (Rejected ConfigurationError)
  ∧ awaiting st1 = ∅
  ∧ inFlightCount st1 !! 7%nat = Some 1
  ∧ inFlightPromise st1 !! 7%nat = Some p
  ∧ runOptimistic 7 (no_sources_op (Some ignore)) VUndefined st1 = (p, st1).
Proof. vm_compute. by split_and!. Qed.

(** ** Status and error targets left out *)

Lemma source_trace_app es es' :
  source_trace (es ++ es') = source_trace es ++ source_trace es'.
Proof. apply filter_app. Qed.

Lemma source_trace_id es :
  Forall (λ e, is_target_write e = false) es → source_trace es = es.
Proof.
  induction 1 as [|e es He _ IH]; [done|].
  unfold source_trace in *. rewrite filter_cons_True by done. by rewrite IH.
Qed.

Lemma source_trace_reads srcs keys σ :
  source_trace (read_events srcs keys σ) = read_events srcs keys σ.
Proof.
  apply source_trace_id. induction keys as [|k keys IH]; [constructor|].
  unfold read_events, read_event in *. simpl.
  destruct (sources_get srcs k); simpl; [by constructor | done].
Qed.

Lemma source_trace_writes srcs keys values :
  source_trace (write_events srcs keys values) = write_events srcs keys values.
Proof.
  apply source_trace_id. induction keys as [|k keys IH]; [constructor|].
  unfold write_events, write_event in *. simpl.
  destruct (sources_get srcs k); simpl; [by constructor | done].
Qed.

Lemma source_trace_status ref s : source_trace (status_events ref s) = [].
Proof. by destruct ref. Qed.

Lemma source_trace_error ref v : source_trace (error_events ref v) = [].
Proof. by destruct ref. Qed.

Lemma agree_off_refl ts σ : agree_off ts σ σ.
Proof. by intros l _. Qed.

Lemma agree_off_write_cells ts srcs keys values σ σ' :
  agree_off ts σ σ' →
  agree_off ts (write_cells srcs keys values σ) (write_cells srcs keys values σ').
Proof.
  revert σ σ'. induction keys as [|k keys IH]; intros σ σ' Hag; simpl; [done|].
  destruct (sources_get srcs k) as [ref|]; [|by apply IH].
  apply IH. intros l Hl. rewrite !writeTarget_insert.
  destruct (decide (target_cell ref = l)) as [->|Hne].
  - by rewrite !lookup_insert_eq.
  - rewrite !lookup_insert_ne by done. by apply Hag.
Qed.

Lemma agree_off_setTarget_l ts ref v σ σ' :
  (∀ r, ref = Some r → target_cell r ∈ ts) →
  agree_off ts σ σ' → agree_off ts (setTarget ref v σ) σ'.
Proof.
  intros Hin Hag l Hl. rewrite setTarget_other; [by apply Hag|].
  intros r Hr Heq. subst l. by apply Hl, Hin.
Qed.

Lemma agree_off_setTarget_r ts ref v σ σ' :
  (∀ r, ref = Some r → target_cell r ∈ ts) →
  agree_off ts σ σ' → agree_off ts σ (setTarget ref v σ').
Proof.
  intros Hin Hag l Hl. rewrite setTarget_other; [by apply Hag|].
  intros r Hr Heq. subst l. by apply Hl, Hin.
Qed.

Lemma status_in_target_cells op r : status op = Some r → target_cell r ∈ target_cells op.
Proof.
  intros Hr. unfold target_cells. rewrite Hr. apply elem_of_app. left. apply list_elem_of_here.
Qed.

Lemma error_in_target_cells op r : error op = Some r → target_cell r ∈ target_cells op.
Proof.
  intros Hr. unfold target_cells. rewrite Hr. apply elem_of_app. right. apply list_elem_of_here.
Qed.

Lemma twin_refl ts st : twin ts st st.
Proof.
  constructor; try done.
  intros q. destruct (awaiting st !! q); constructor. by left.
Qed.

(** The call, with the targets and without them, from one state. *)
Lemma twin_call no_status no_error opKey op payload st :
  (runOptimistic opKey op payload st).1
    = (runOptimistic opKey (omit_targets no_status no_error op) payload st).1
  ∧ twin (target_cells op) (runOptimistic opKey op payload st).2
         (runOptimistic opKey (omit_targets no_status no_error op) payload st).2.
Proof.
  set (op' := omit_targets no_status no_error op).
  assert (Hst' : ∀ r, status op' = Some r → target_cell r ∈ target_cells op).
  { intros r. subst op'. simpl. destruct no_status; [done|]. apply status_in_target_cells. }
  assert (Her' : ∀ r, error op' = Some r → target_cell r ∈ target_cells op).
  { intros r. subst op'. simpl. destruct no_error; [done|]. apply error_in_target_cells. }
  destruct (attached opKey op st) as [existing|] eqn:Hatt.
  { rewrite !(runOptimistic_attached _ _ _ _ existing) by done.
    split; [done | apply twin_refl]. }
  destruct (decide (Object_keys (sources op) = [])) as [Hkeys|Hkeys].
  { rewrite !runOptimistic_no_sources by done. split; [done | apply twin_refl]. }
  destruct (mutate op (prior_snapshot op st) payload) as [optimistic|e] eqn:Hmut.
  - rewrite (runOptimistic_started _ _ _ _ optimistic Hatt Hkeys Hmut).
    rewrite (runOptimistic_started opKey op' payload st optimistic) by done.
    split; [done|]. constructor; fields; try done.
    + apply agree_off_setTarget_l; [apply error_in_target_cells|].
      apply agree_off_setTarget_l; [apply status_in_target_cells|].
      apply agree_off_setTarget_r; [done|].
      apply agree_off_setTarget_r; [done|].
      apply agree_off_refl.
    + rewrite !source_trace_app, !source_trace_status, !source_trace_error. done.
    + intros q. destruct (decide (q = length (promises st))) as [->|Hne].
      * rewrite !lookup_insert_eq. constructor. right. by exists no_status, no_error.
      * rewrite !lookup_insert_ne by done.
        destruct (awaiting st !! q); constructor. by left.
  - rewrite (runOptimistic_mutate_throws _ _ _ _ e Hatt Hkeys Hmut).
    rewrite (runOptimistic_mutate_throws opKey op' payload st e) by done.
    split; [done | apply twin_refl].
Qed.

Lemma twin_finish ts p s k st st' :
  twin ts st st' →
  twin ts (settle p s (finally_block k st)) (settle p s (finally_block k st')).
Proof.
  intros [Hc Hn Hs Hp Hl Hf].
  destruct (finally_block_book k st st' Hn Hs) as [Hn' Hs'].
  constructor; fields;
    rewrite ?finally_block_cells, ?finally_block_promises, ?finally_block_log,
            ?finally_block_awaiting; try done.
  by rewrite Hp.
Qed.

Lemma twin_delete ts p st st' :
  twin ts st st' →
  twin ts (set_awaiting (delete p (awaiting st)) st)
          (set_awaiting (delete p (awaiting st')) st').
Proof.
  intros [Hc Hn Hs Hp Hl Hf]. constructor; fields; try done.
  intros q. destruct (decide (p = q)) as [->|Hne].
  - rewrite !lookup_delete_eq. constructor.
  - rewrite !lookup_delete_ne by done. apply Hf.
Qed.

Lemma twin_write_sources ts srcs keys values st st' :
  twin ts st st' →
  twin ts (write_sources srcs keys values st) (write_sources srcs keys values st').
Proof.
  intros [Hc Hn Hs Hp Hl Hf]. rewrite !write_sources_spec.
  constructor; fields; try done.
  - by apply agree_off_write_cells.
  - rewrite !source_trace_app. by rewrite Hl.
Qed.

Lemma twin_setStatus_l ts ref s st st' :
  (∀ r, ref = Some r → target_cell r ∈ ts) →
  twin ts st st' → twin ts (setStatus ref s st) st'.
Proof.
  intros Hin [Hc Hn Hs Hp Hl Hf]. rewrite setStatus_spec.
  constructor; fields; try done.
  - by apply agree_off_setTarget_l.
  - by rewrite source_trace_app, source_trace_status, app_nil_r.
Qed.

Lemma twin_setStatus_r ts ref s st st' :
  (∀ r, ref = Some r → target_cell r ∈ ts) →
  twin ts st st' → twin ts st (setStatus ref s st').
Proof.
  intros Hin [Hc Hn Hs Hp Hl Hf]. rewrite setStatus_spec.
  constructor; fields; try done.
  - by apply agree_off_setTarget_r.
  - by rewrite source_trace_app, source_trace_status, app_nil_r.
Qed.

Lemma twin_setError_l ts ref v st st' :
  (∀ r, ref = Some r → target_cell r ∈ ts) →
  twin ts st st' → twin ts (setError ref v st) st'.
Proof.
  intros Hin [Hc Hn Hs Hp Hl Hf]. rewrite setError_spec.
  constructor; fields; try done.
  - by apply agree_off_setTarget_l.
  - by rewrite source_trace_app, source_trace_error, app_nil_r.
Qed.

Lemma twin_setError_r ts ref v st st' :
  (∀ r, ref = Some r → target_cell r ∈ ts) →
  twin ts st st' → twin ts st (setError ref v st').
Proof.
  intros Hin [Hc Hn Hs Hp Hl Hf]. rewrite setError_spec.
  constructor; fields; try done.
  - by apply agree_off_setTarget_r.
  - by rewrite source_trace_app, source_trace_error, app_nil_r.
Qed.

Lemma twin_handled ts e σ σ' st st' :
  agree_off ts σ σ' →
  twin ts st st' →
  twin ts (set_cells σ (emit e st)) (set_cells σ' (emit e st')).
Proof.
  intros Hag [Hc Hn Hs Hp Hl Hf]. constructor; fields; try done.
  rewrite !source_trace_app. by rewrite Hl.
Qed.

(** The continuation, with the targets and without them, from twin states. *)
Lemma twin_resume ts p outcome st st' fr :
  twin ts st st' →
  awaiting st !! p = Some fr →
  (∀ l, l ∈ target_cells (fr_op fr) → l ∈ ts) →
  (∀ handler, rollback (fr_op fr) = Some handler → blind ts handler) →
  twin ts (resume p outcome st) (resume p outcome st').
Proof.
  intros Htwin Hfr Hts Hblind.
  pose proof (twin_frames _ _ _ Htwin p) as Hrel. rewrite Hfr in Hrel.
  inversion Hrel as [? fr' Hfr' Heq Hfr2|]; subst. symmetry in Hfr2.
  assert (Hst : ∀ r, status (fr_op fr) = Some r → target_cell r ∈ ts).
  { intros r Hr. by apply Hts, status_in_target_cells. }
  assert (Her : ∀ r, error (fr_op fr) = Some r → target_cell r ∈ ts).
  { intros r Hr. by apply Hts, error_in_target_cells. }
  assert (Hsame : fr_opKey fr' = fr_opKey fr
                  ∧ sources (fr_op fr') = sources (fr_op fr)
                  ∧ rollback (fr_op fr') = rollback (fr_op fr)
                  ∧ fr_payload fr' = fr_payload fr
                  ∧ fr_optimistic fr' = fr_optimistic fr
                  ∧ fr_snapshot fr' = fr_snapshot fr
                  ∧ (∀ r, status (fr_op fr') = Some r → target_cell r ∈ ts)
                  ∧ (∀ r, error (fr_op fr') = Some r → target_cell r ∈ ts)).
  { destruct Hfr' as [->|(b1 & b2 & ->)]; simpl; [by split_and!|].
    split_and!; try done.
    - intros r. destruct b1; [done | apply Hst].
    - intros r. destruct b2; [done | apply Her]. }
  destruct Hsame as (Hk & Hsrc & Hrb & Hpay & Hopt & Hsnap & Hst' & Her').
  pose proof (twin_delete ts p _ _ Htwin) as Hdel.
  destruct outcome as [result|err].
  - rewrite (resume_resolved _ _ _ _ Hfr), (resume_resolved _ _ _ _ Hfr2), Hk.
    apply twin_finish. by apply twin_setStatus_l, twin_setStatus_r.
  - destruct (rollback (fr_op fr)) as [handler|] eqn:Hh.
    + destruct (Hblind handler eq_refl
                  (mkRollbackCtx (fr_payload fr) (fr_optimistic fr) (fr_snapshot fr) err)
                  (cells st) (cells st') (twin_cells _ _ _ Htwin)) as [Hthrown Hag].
      destruct (handler _ (cells st)) as [σ1 t1] eqn:H1.
      destruct (handler _ (cells st')) as [σ2 t2] eqn:H2.
      simpl in Hthrown, Hag. subst t2.
      destruct t1 as [thrown|].
      * rewrite (resume_rejected_custom_throws _ _ _ _ handler σ1 thrown Hfr Hh H1).
        rewrite (resume_rejected_custom_throws _ _ _ fr' handler σ2 thrown Hfr2);
          [|done|by rewrite Hpay, Hopt, Hsnap].
        rewrite Hk, Hpay, Hopt, Hsnap.
        apply twin_finish. by apply twin_handled.
      * rewrite (resume_rejected_custom _ _ _ _ handler σ1 Hfr Hh H1).
        rewrite (resume_rejected_custom _ _ _ fr' handler σ2 Hfr2);
          [|done|by rewrite Hpay, Hopt, Hsnap].
        rewrite Hk, Hpay, Hopt, Hsnap.
        apply twin_finish.
        apply twin_setError_l, twin_setError_r, twin_setStatus_l, twin_setStatus_r; try done.
        by apply twin_handled.
    + rewrite (resume_rejected_auto _ _ _ _ Hfr Hh).
      rewrite (resume_rejected_auto _ _ _ fr' Hfr2) by congruence.
      rewrite Hk, Hsrc, Hsnap.
      apply twin_finish.
      apply twin_setError_l, twin_setError_r, twin_setStatus_l, twin_setStatus_r; try done.
      by apply twin_write_sources.
Qed.

(** C10. The status and error targets only add their own writes. When the
    rollback handler of the descriptor (if it has one) does not depend on
    the status and error cells: a call with the targets and a call with
    the status target, the error target or both left out, from one state,
    return the same promise and leave twin states; and from twin states the
    continuation of a run of the descriptor leaves twin states again. Twin states have the same
    promises with the same settlements, the same bookkeeping, the same
    reads and writes of source cells and the same calls of the callbacks
    in their logs, and the same contents in every cell but the status and
    error cells. *)
Theorem C10_targets_only_add_their_writes
    (no_status no_error : bool)
    (opKey : nat) (op : OptimisticOperation) (payload : value) :
  (∀ handler, rollback op = Some handler → blind (target_cells op) handler) →
  (∀ st,
     (runOptimistic opKey op payload st).1
       = (runOptimistic opKey (omit_targets no_status no_error op) payload st).1
     ∧ twin (target_cells op) (runOptimistic opKey op payload st).2
            (runOptimistic opKey (omit_targets no_status no_error op) payload st).2)
  ∧ (∀ st2 st2' p fr outcome,
       twin (target_cells op) st2 st2' →
       awaiting st2 !! p = Some fr →
       fr_op fr = op →
       twin (target_cells op) (resume p outcome st2) (resume p outcome st2')).
Proof.
  intros Hblind. split.
  - intros st. apply twin_call.
  - intros st2 st2' p fr outcome Htwin Hfr Hop.
    apply (twin_resume _ _ _ _ _ fr); [done | done | by rewrite Hop | by rewrite Hop].
Qed.

(** ** The statements at the counter of the test-suite *)

Lemma counter_run_setting policy handler :
  Object_keys (sources (counter_op policy handler)) ≠ []
  ∧ attached 7 (counter_op policy handler) (initial counter_cells) = None
  ∧ mutate (counter_op policy handler)
      (prior_snapshot (counter_op policy handler) (initial counter_cells)) (delta 5)
    = Normal {[ "counter" := VNum 15 ]}
  ∧ runOptimistic 7 (counter_op policy handler) (delta 5) (initial counter_cells)
    = (0%nat, (counter_called policy handler).2)
  ∧ rtc (step (counter_host policy handler)) (counter_called policy handler).2
        (counter_later policy handler)
  ∧ is_Some (awaiting (counter_later policy handler) !! 0%nat).
Proof.
  split_and!.
  - done.
  - by destruct policy as [[]|].
  - reflexivity.
  - by destruct policy as [[]|].
  - apply rtc_once, step_cell.
  - eexists. by destruct policy as [[]|].
Defined.

Lemma counter_cells_apart policy handler :
  distinct_sources (counter_op policy handler)
  ∧ targets_off_sources (counter_op policy handler).
Proof.
  split.
  - apply NoDup_singleton.
  - repeat constructor; by intros ?%list_elem_of_singleton.
Defined.

Lemma C1_success_at_counter :
  cells (resume 0 (inl (VStr "success")) (counter_later None None)) !! 0%nat
    = Some (VNum 15)
  ∧ promises (resume 0 (inl (VStr "success")) (counter_later None None)) !! 0%nat
    = Some (Fulfilled (VStr "success")).
Proof.
  destruct (counter_run_setting None None) as (H1 & H2 & H3 & H4 & H5 & H6).
  destruct (counter_cells_apart None None) as [H7 H8].
  assert (H9 : ∀ l, l ∈ source_cells (counter_op None None) →
            cells (counter_later None None) !! l = cells (counter_called None None).2 !! l).
  { intros l Hl%list_elem_of_singleton. by subst l. }
  destruct (C1_success_keeps_optimistic _ _ _ _ _ _ _ _ _ H1 H2 H3 H4 H5 H6
              (VStr "success") H7 H8 H9) as (Hp & Hc & _).
  split; [|exact Hp].
  exact (proj2 (Hc "counter" (WritableRef 0) eq_refl)).
Defined.

Lemma C2_failure_at_counter :
  cells (resume 0 (inr (VError "Request failed")) (counter_later None None)) !!! 0%nat
    = VNum 10.
Proof.
  destruct (counter_run_setting None None) as (H1 & H2 & H3 & H4 & H5 & H6).
  destruct (counter_cells_apart None None) as [_ H8].
  destruct (C2_failure_restores_prior _ _ _ _ _ _ _ _ _ H1 H2 H3 H4 H5 H6
              (VError "Request failed") eq_refl H8) as [Hc _].
  exact (Hc "counter" (WritableRef 0) eq_refl).
Defined.

Lemma set_999_returns (ctx : RollbackCtx) (σ : gmap nat value) :
  ∀ handler, rollback (counter_op None (Some set_999)) = Some handler →
    (handler ctx σ).2 = None.
Proof. by intros handler [= <-]. Defined.

Lemma C4_failure_at_counter :
  promises (resume 0 (inr (VError "Request failed")) (counter_later None (Some set_999)))
    !! 0%nat = Some (Rejected (VError "Request failed"))
  ∧ cells (resume 0 (inr (VError "Request failed")) (counter_later None (Some set_999)))
      !! 2%nat = Some (VError "Request failed")
  ∧ cells (resume 0 (inr (VError "Request failed")) (counter_later None (Some set_999)))
      !! 1%nat = Some (VStr "error").
Proof.
  destruct (counter_run_setting None (Some set_999)) as (H1 & H2 & H3 & H4 & H5 & H6).
  destruct (C4_failure_reported _ _ _ _ _ _ _ _ _ H1 H2 H3 H4 H5 H6
              (VError "Request failed") (set_999_returns _ _)) as (Hp & _ & He & Hs).
  split_and!.
  - exact Hp.
  - exact (He (CallableWritable 2) eq_refl).
  - apply (Hs (WritableRef 1) eq_refl). by intros r' [= <-].
Defined.

Lemma C6_order_at_counter :
  (∃ between after,
    log (resume 0 (inr (VError "Request failed")) (counter_later None (Some set_999)))
      = [EvRead "counter" 0 (VNum 10);
         EvMutate {[ "counter" := VNum 10 ]} (delta 5);
         EvWrite "counter" 0 (VNum 15);
         EvStatus 1 Pending;
         EvError 2 VNull]
        ++ between ++ [EvStatus 1 Error] ++ after)
  ∧ cells (counter_called None (Some set_999)).2 !! 0%nat = Some (VNum 15)
  ∧ cells (counter_called None (Some set_999)).2 !! 1%nat = Some (VStr "pending")
  ∧ cells (counter_called None (Some set_999)).2 !! 2%nat = Some VNull
  ∧ cells (resume 0 (inr (VError "Request failed")) (counter_later None (Some set_999)))
      !! 1%nat = Some (VStr "error").
Proof.
  destruct (counter_run_setting None (Some set_999)) as (H1 & H2 & H3 & H4 & H5 & H6).
  destruct (counter_cells_apart None (Some set_999)) as [H7 H8].
  destruct (C6_pending_after_apply _ _ _ _ _ _ _ _ _ H1 H2 H3 H4 H5 H6
              (WritableRef 1) (inr (VError "Request failed")) eq_refl)
    as (Hlog & _ & _ & Hpending & Hnull & Hsrc & Hlast).
  { intros handler err [= <-] _. reflexivity. }
  split_and!.
  - exact Hlog.
  - exact (proj2 (Hsrc H7 H8 "counter" (WritableRef 0) eq_refl)).
  - apply Hpending. by intros e [= <-].
  - exact (Hnull (CallableWritable 2) eq_refl).
  - apply Hlast. by intros e [= <-].
Defined.

Lemma C7_custom_rollback_at_counter :
  cells (resume 0 (inr (VError "Request failed")) (counter_later None (Some set_999)))
    !! 0%nat = Some (VNum 999).
Proof.
  destruct (counter_run_setting None (Some set_999)) as (H1 & H2 & H3 & H4 & H5 & H6).
  destruct (C7_custom_rollback_only _ _ _ _ _ _ _ _ _ H1 H2 H3 H4 H5 H6
              (VError "Request failed") set_999 eq_refl) as (_ & _ & _ & Hc).
  apply (Hc 0%nat).
  intros [?%list_elem_of_singleton|?%list_elem_of_singleton]%elem_of_app; done.
Defined.

Lemma C3_second_call_at_counter :
  runOptimistic 7 (counter_op (Some ignore) None) (delta 2)
    (counter_called (Some ignore) None).2
  = (0%nat, (counter_called (Some ignore) None).2).
Proof.
  apply (C3_ignore_attaches_to_run_in_flight (counter_host (Some ignore) None)
           counter_cells _ 7 _ (delta 2) 0
           (mkFrame 7 (counter_op (Some ignore) None) (delta 5)
              {[ "counter" := VNum 15 ]} {[ "counter" := VNum 10 ]})).
  - apply rtc_once. apply (step_run _ 7 (counter_op (Some ignore) None) (delta 5)).
    reflexivity.
  - reflexivity.
  - reflexivity.
  - reflexivity.
  - reflexivity.
Defined.

Lemma C8_no_sources_twice :
  let st := (runOptimistic 7 (no_sources_op (Some ignore)) VUndefined (initial counter_cells)).2 in
  promises (runOptimistic 7 (no_sources_op (Some ignore)) VUndefined st).2
    !! (runOptimistic 7 (no_sources_op (Some ignore)) VUndefined st).1
    = Some (Rejected (VError "runOptimistic requires at least one source to update."))
  ∧ cells (runOptimistic 7 (no_sources_op (Some ignore)) VUndefined st).2 = cells st
  ∧ log (runOptimistic 7 (no_sources_op (Some ignore)) VUndefined st).2 = log st.
Proof.
  apply (C8_no_sources_rejected (no_sources_host (Some ignore)) counter_cells).
  - apply rtc_once. apply (step_run _ 7 (no_sources_op (Some ignore)) VUndefined).
    reflexivity.
  - reflexivity.
  - reflexivity.
Defined.

Lemma C9_throwing_mutation_at_counter :
  promises (runOptimistic 7 (counter_op None None) VUndefined (initial counter_cells)).2
    !! (runOptimistic 7 (counter_op None None) VUndefined (initial counter_cells)).1
    = Some (Rejected (VError "Cannot read properties of undefined"))
  ∧ cells (runOptimistic 7 (counter_op None None) VUndefined (initial counter_cells)).2
    = counter_cells.
Proof.
  destruct (C9_mutate_throws_writes_nothing 7 (counter_op None None) VUndefined
              (initial counter_cells) (VError "Cannot read properties of undefined"))
    as (Hp & Hc & _); [done | reflexivity | reflexivity |].
  split; [exact Hp | exact Hc].
Defined.

Lemma set_999_blind : blind [1%nat; 2%nat] set_999.
Proof.
  intros ctx σ σ' Hag. split; [done|]. intros l Hl. simpl.
  destruct (decide (0%nat = l)) as [<-|Hne].
  - by rewrite !lookup_insert_eq.
  - rewrite !lookup_insert_ne by done. by apply Hag.
Defined.

Lemma C10_targets_at_counter :
  twin [1%nat; 2%nat]
    (resume 0 (inr (VError "Request failed")) (counter_called None (Some set_999)).2)
    (resume 0 (inr (VError "Request failed"))
       (runOptimistic 7 (omit_targets true true (counter_op None (Some set_999)))
          (delta 5) (initial counter_cells)).2).
Proof.
  destruct (C10_targets_only_add_their_writes true true 7
              (counter_op None (Some set_999)) (delta 5)) as [Hcall Hres].
  { intros handler [= <-]. apply set_999_blind. }
  apply (Hres _ _ 0%nat
           (mkFrame 7 (counter_op None (Some set_999)) (delta 5)
              {[ "counter" := VNum 15 ]} {[ "counter" := VNum 10 ]})).
  - apply Hcall.
  - reflexivity.
  - reflexivity.
Defined.

Lemma X1_settled_counter :
  inFlightCount (resume 0 (inl (VStr "success")) (counter_later None None)) !! 7%nat = None
  ∧ inFlightPromise (resume 0 (inl (VStr "success")) (counter_later None None)) !! 7%nat
    = None.
Proof.
  destruct (X1_settled_run_decrements 0 (inl (VStr "success")) (counter_later None None)
              (mkFrame 7 (counter_op None None) (delta 5)
                 {[ "counter" := VNum 15 ]} {[ "counter" := VNum 10 ]}) eq_refl)
    as [_ Hlast].
  apply Hlast. vm_compute. by intros [=].
Defined.

Lemma X2_second_call_at_counter :
  operation_calls
    (log (runOptimistic 7 (counter_op None None) (delta 2) (counter_called None None).2).2)
  = 2%nat.
Proof.
  destruct (X2_allow_runs_every_call 7 (counter_op None None) (delta 2)
              (counter_called None None).2 {[ "counter" := VNum 17 ]})
    as (_ & _ & Hcalls); [reflexivity | done | reflexivity |].
  exact Hcalls.
Defined.

(** * Beyond the claims *)

(** ** The program around the executor keeps its invariant *)

Lemma invariant_more_objects (m : gmap nat OptimisticOperation) k op st :
  m !! k = None →
  inFlightPromise st !! k = None →
  invariant (λ k', m !! k') st →
  invariant (λ k', <[k := op]> m !! k') st.
Proof.
  intros Hnew Hnone [Hcnt Huns Hobj Hign Hsrc]. constructor; try done.
  - intros p fr Hfr. pose proof (Hobj _ _ Hfr) as H. simpl in *.
    rewrite lookup_insert_ne; [done|]. intros Heq. rewrite Heq in Hnew. congruence.
  - intros k' op' p Hop Hkeys Hp. simpl in *.
    apply lookup_insert_Some in Hop as [[<- _]|[_ Hop]]; [congruence|].
    by eapply Hsrc.
Qed.

Lemma host_invariant_initial σ : host_invariant (host_initial σ).
Proof.
  constructor; simpl.
  - apply invariant_initial.
  - intros k [x Hx]. by rewrite lookup_empty in Hx.
  - intros k [x Hx]. by rewrite lookup_empty in Hx.
Qed.

Lemma host_invariant_new_object h op σ :
  host_invariant h →
  host_invariant (mkHost (<[fresh (dom (objects h)) := op]> (objects h))
                    (set_cells σ (executor h))).
Proof.
  intros [Hinv Hc Hs].
  assert (Hnew : objects h !! fresh (dom (objects h)) = None).
  { apply not_elem_of_dom, is_fresh. }
  constructor; simpl.
  - apply invariant_more_objects; [done | |].
    + destruct (inFlightPromise (executor h) !! fresh (dom (objects h))) eqn:E; [|done].
      destruct (Hs (fresh (dom (objects h)))) as [x Hx]; [eauto | congruence].
    + destruct Hinv. by constructor.
  - intros k Hk. apply Hc in Hk as [x Hx].
    destruct (decide (fresh (dom (objects h)) = k)) as [<-|Hne]; [congruence|].
    rewrite lookup_insert_ne by done. eauto.
  - intros k Hk. apply Hs in Hk as [x Hx].
    destruct (decide (fresh (dom (objects h)) = k)) as [<-|Hne]; [congruence|].
    rewrite lookup_insert_ne by done. eauto.
Qed.

Lemma createOptimisticAction_host op h :
  ∃ σ, (createOptimisticAction op h).2
       = mkHost (<[fresh (dom (objects h)) := act_op (createOptimisticAction op h).1]>
                   (objects h))
                (set_cells σ (executor h)).
Proof.
  unfold createOptimisticAction, createRef.
  destruct (status op), (error op); simpl; by eexists.
Qed.

Lemma host_invariant_run h k op payload :
  host_invariant h → objects h !! k = Some op →
  host_invariant (mkHost (objects h) (runOptimistic k op payload (executor h)).2).
Proof.
  intros [Hinv Hc Hs] Hop. constructor; simpl.
  - by apply (invariant_run (λ k, objects h !! k)).
  - destruct (attached k op (executor h)) as [existing|] eqn:Hatt.
    { by rewrite (runOptimistic_attached _ _ _ _ _ Hatt). }
    destruct (run_shape k op payload _ Hatt) as (σ & ps & fs & es & -> & _). simpl.
    intros k' [x [[<- _]|[_ Hx]]%lookup_insert_Some]; eauto.
  - destruct (attached k op (executor h)) as [existing|] eqn:Hatt.
    { by rewrite (runOptimistic_attached _ _ _ _ _ Hatt). }
    destruct (run_shape k op payload _ Hatt) as (σ & ps & fs & es & -> & _). simpl.
    intros k' [x [[<- _]|[_ Hx]]%lookup_insert_Some]; eauto.
Qed.

Lemma host_invariant_settle h p outcome :
  host_invariant h → is_Some (awaiting (executor h) !! p) →
  host_invariant (mkHost (objects h) (resume p outcome (executor h))).
Proof.
  intros [Hinv Hc Hs] [fr Hfr]. constructor; simpl.
  - apply (invariant_resume (λ k, objects h !! k)); eauto.
  - destruct (resume_shape p outcome _ fr Hfr) as (σ & es & s & _ & ->). fields.
    match goal with |- context [finally_block ?k ?st] =>
      destruct (finally_block_cases k st) as [(n & _ & -> & _)|[-> _]] end; simpl.
    + intros k' [x [[<- _]|[_ Hx]]%lookup_insert_Some]; [|eauto].
      destruct Hinv as [_ _ Hobj _ _]. pose proof (Hobj _ _ Hfr) as Hin.
      simpl in Hin. eauto.
    + intros k' [x [_ Hx]%lookup_delete_Some]. eauto.
  - destruct (resume_shape p outcome _ fr Hfr) as (σ & es & s & _ & ->). fields.
    match goal with |- context [finally_block ?k ?st] =>
      destruct (finally_block_cases k st) as [(n & _ & _ & ->)|[_ ->]] end; simpl.
    + done.
    + intros k' [x [_ Hx]%lookup_delete_Some]. eauto.
Qed.

Lemma host_invariant_step h h' :
  host_invariant h → host_step h h' → host_invariant h'.
Proof.
  intros Hinv Hstep. destruct Hstep as [op h|op h|k op payload h Hop|p outcome h Hp|l v h].
  - replace (executor h) with (set_cells (cells (executor h)) (executor h))
      by by destruct (executor h).
    by apply host_invariant_new_object.
  - destruct (createOptimisticAction_host op h) as [σ ->].
    by apply host_invariant_new_object.
  - by apply host_invariant_run.
  - by apply host_invariant_settle.
  - destruct Hinv as [Hinv Hc Hs]. constructor; simpl; [|done|done].
    by apply (invariant_cell (λ k, objects h !! k)).
Qed.

Lemma host_invariant_reachable σ h :
  rtc host_step (host_initial σ) h → host_invariant h.
Proof.
  intros Hrtc.
  refine (rtc_ind_r (R := host_step) (λ h, host_invariant h) (host_initial σ) _ _ h Hrtc).
  - apply host_invariant_initial.
  - intros y z _ Hstep IH. by eapply host_invariant_step.
Qed.

(** ** The snapshot and the cells a run touches *)

Lemma snapshot_into_other srcs keys snapshot σ key :
  key ∉ keys → snapshot_into srcs keys snapshot σ !! key = snapshot !! key.
Proof.
  revert snapshot. induction keys as [|k keys IH]; intros snapshot Hnot; simpl; [done|].
  apply not_elem_of_cons in Hnot as [Hne Hnot].
  destruct (sources_get srcs k); rewrite IH by done; [|done].
  by rewrite lookup_insert_ne.
Qed.

(** X3. The prior snapshot has the keys of the Source Set and no other,
    each with the value its cell holds when the call begins; for a run that
    reaches its confirming operation, this snapshot, the payload and the
    result of the mutation are what the operation is called with (the last
    thing the call does) and what the suspended run keeps for the
    rollback. *)
Theorem X3_snapshot_holds_cells_at_call
    (opKey : nat) (op : OptimisticOperation) (payload : value) (st : state)
    (optimistic : gmap string value) :
  attached opKey op st = None →
  Object_keys (sources op) ≠ [] →
  mutate op (prior_snapshot op st) payload = Normal optimistic →
  (∀ key, prior_snapshot op st !! key
          = (ref ← sources_get (sources op) key; Some (cells st !!! target_cell ref)))
  ∧ last (log (runOptimistic opKey op payload st).2)
    = Some (EvOperation opKey (mkOperationCtx payload optimistic (prior_snapshot op st)))
  ∧ awaiting (runOptimistic opKey op payload st).2 !! (runOptimistic opKey op payload st).1
    = Some (mkFrame opKey op payload optimistic (prior_snapshot op st)).
Proof.
  intros Hatt Hkeys Hmut. split_and!.
  - intros key. rewrite prior_snapshot_cells.
    destruct (sources_get (sources op) key) as [ref|] eqn:Hget; simpl.
    + rewrite (snapshot_into_lookup _ _ _ _ _ ref); [|left|done].
      * by rewrite readTarget_lookup.
      * by eapply sources_get_in_keys.
    + rewrite snapshot_into_other; [done|].
      intros [ref Href]%sources_get_keys. congruence.
  - rewrite (runOptimistic_started _ _ _ _ _ Hatt Hkeys Hmut). fields.
    rewrite !app_assoc. apply last_snoc.
  - rewrite (runOptimistic_started _ _ _ _ _ Hatt Hkeys Hmut). fields.
    apply lookup_insert_eq.
Qed.

Lemma not_source_cell op l key ref :
  l ∉ source_cells op → sources_get (sources op) key = Some ref → target_cell ref ≠ l.
Proof. intros Hl Hget Heq. subst l. by apply Hl, (source_cell_elem _ key). Qed.

Lemma not_status_cell op l r : l ∉ target_cells op → status op = Some r → target_cell r ≠ l.
Proof. intros Hl Hr Heq. subst l. by apply Hl, status_in_target_cells. Qed.

Lemma not_error_cell op l r : l ∉ target_cells op → error op = Some r → target_cell r ≠ l.
Proof. intros Hl Hr Heq. subst l. by apply Hl, error_in_target_cells. Qed.

(** X4. The executor writes the cells of its descriptor only. A call
    leaves every cell that is neither a source cell nor the status or error
    cell of the descriptor as it was, and so does the continuation of a
    run, on success and on a failure with the automatic reversal. *)
Theorem X4_writes_only_own_cells
    (opKey : nat) (op : OptimisticOperation) (payload : value) (st : state) (l : nat) :
  l ∉ source_cells op →
  l ∉ target_cells op →
  cells (runOptimistic opKey op payload st).2 !! l = cells st !! l
  ∧ (∀ st2 p fr outcome,
       awaiting st2 !! p = Some fr → fr_op fr = op →
       (if outcome is inl _ then True else rollback op = None) →
       cells (resume p outcome st2) !! l = cells st2 !! l).
Proof.
  intros Hsrc Htgt.
  assert (Hst : ∀ v σ, setTarget (status op) v σ !! l = σ !! l).
  { intros v σ. apply setTarget_other. intros r. by apply not_status_cell. }
  assert (Her : ∀ v σ, setTarget (error op) v σ !! l = σ !! l).
  { intros v σ. apply setTarget_other. intros r. by apply not_error_cell. }
  assert (Hwr : ∀ values σ,
            write_cells (sources op) (Object_keys (sources op)) values σ !! l = σ !! l).
  { intros values σ. apply write_cells_other. intros key ref _. by apply not_source_cell. }
  split.
  - destruct (attached opKey op st) as [existing|] eqn:Hatt.
    { by rewrite (runOptimistic_attached _ _ _ _ _ Hatt). }
    destruct (decide (Object_keys (sources op) = [])) as [Hkeys|Hkeys].
    { by rewrite (runOptimistic_no_sources _ _ _ _ Hatt Hkeys). }
    destruct (mutate op (prior_snapshot op st) payload) as [optimistic|e] eqn:Hmut.
    + rewrite (runOptimistic_started _ _ _ _ _ Hatt Hkeys Hmut). fields.
      by rewrite Her, Hst, Hwr.
    + by rewrite (runOptimistic_mutate_throws _ _ _ _ _ Hatt Hkeys Hmut).
  - intros st2 p fr outcome Hfr Hop Hauto. destruct outcome as [result|err].
    + rewrite (resume_resolved _ _ _ _ Hfr), setStatus_spec, Hop. fields.
      rewrite finally_block_cells. cbn [cells]. by rewrite Hst.
    + rewrite <- Hop in Hauto. rewrite (resume_rejected_auto _ _ _ _ Hfr Hauto).
      rewrite write_sources_spec, setStatus_spec, setError_spec, Hop. fields.
      rewrite finally_block_cells. cbn [cells]. by rewrite Her, Hst, Hwr.
Qed.

(** ** What the executor never announces *)

Lemma read_events_Forall (P : event → Prop) srcs keys σ :
  (∀ key cell v, P (EvRead key cell v)) → Forall P (read_events srcs keys σ).
Proof.
  intros HP. induction keys as [|k keys IH]; [constructor|].
  unfold read_events, read_event in *. simpl.
  destruct (sources_get srcs k); simpl; [by constructor | done].
Qed.

Lemma write_events_Forall (P : event → Prop) srcs keys values :
  (∀ key cell v, P (EvWrite key cell v)) → Forall P (write_events srcs keys values).
Proof.
  intros HP. induction keys as [|k keys IH]; [constructor|].
  unfold write_events, write_event in *. simpl.
  destruct (sources_get srcs k); simpl; [by constructor | done].
Qed.

Lemma runOptimistic_never_idle opKey op payload st :
  ∃ es, log (runOptimistic opKey op payload st).2 = log st ++ es
        ∧ Forall (λ e, announces_idle e = false) es.
Proof.
  destruct (attached opKey op st) as [existing|] eqn:Hatt.
  { rewrite (runOptimistic_attached _ _ _ _ _ Hatt). exists []. by rewrite app_nil_r. }
  destruct (decide (Object_keys (sources op) = [])) as [Hkeys|Hkeys].
  { rewrite (runOptimistic_no_sources _ _ _ _ Hatt Hkeys). exists []. by rewrite app_nil_r. }
  destruct (mutate op (prior_snapshot op st) payload) as [optimistic|e] eqn:Hmut.
  - rewrite (runOptimistic_started _ _ _ _ _ Hatt Hkeys Hmut). fields.
    eexists. split; [done|].
    repeat apply Forall_app_2.
    + by apply read_events_Forall.
    + by constructor.
    + by apply write_events_Forall.
    + destruct (status op); by repeat constructor.
    + destruct (error op); by repeat constructor.
    + by repeat constructor.
  - rewrite (runOptimistic_mutate_throws _ _ _ _ _ Hatt Hkeys Hmut). fields.
    eexists. split; [done|].
    apply Forall_app_2; [by apply read_events_Forall | by repeat constructor].
Qed.

Lemma resume_never_idle p outcome st :
  ∃ es, log (resume p outcome st) = log st ++ es
        ∧ Forall (λ e, announces_idle e = false) es.
Proof.
  destruct (awaiting st !! p) as [fr|] eqn:Hfr.
  2:{ unfold resume. rewrite Hfr. exists []. by rewrite app_nil_r. }
  assert (Hst : ∀ s, s ≠ Idle →
            Forall (λ e, announces_idle e = false) (status_events (status (fr_op fr)) s)).
  { intros s Hs. destruct (status (fr_op fr)); [|constructor].
    repeat constructor. by destruct s. }
  assert (Her : ∀ v, Forall (λ e, announces_idle e = false)
                       (error_events (error (fr_op fr)) v)).
  { intros v. destruct (error (fr_op fr)); by repeat constructor. }
  destruct outcome as [result|err].
  - rewrite (resume_resolved _ _ _ _ Hfr), setStatus_spec. fields.
    rewrite finally_block_log. cbn [log]. eexists. split; [done|]. by apply Hst.
  - destruct (rollback (fr_op fr)) as [handler|] eqn:Hrb.
    + destruct (handler (mkRollbackCtx (fr_payload fr) (fr_optimistic fr) (fr_snapshot fr) err)
                  (cells st)) as [σ [thrown|]] eqn:Hh.
      * rewrite (resume_rejected_custom_throws _ _ _ _ _ _ _ Hfr Hrb Hh). fields.
        rewrite finally_block_log. cbn [log]. eexists. split; [done|].
        by repeat constructor.
      * rewrite (resume_rejected_custom _ _ _ _ _ _ Hfr Hrb Hh).
        rewrite setStatus_spec, setError_spec. fields.
        rewrite finally_block_log. cbn [log]. rewrite <- !app_assoc.
        eexists. split; [done|].
        repeat apply Forall_app_2; [by repeat constructor | by apply Hst | apply Her].
    + rewrite (resume_rejected_auto _ _ _ _ Hfr Hrb).
      rewrite write_sources_spec, setStatus_spec, setError_spec. fields.
      rewrite finally_block_log. cbn [log]. rewrite <- !app_assoc.
      eexists. split; [done|].
      repeat apply Forall_app_2;
        [by apply write_events_Forall | by apply Hst | apply Her].
Qed.

(** X5. The executor never sets a status back to ['idle']: in every state
    the program reaches, by whatever calls, settlements and actions made,
    no status write of the log is a write of ['idle'] (['idle'] is only
    what a cell made by [createRef] starts with). *)
Theorem X5_status_never_back_to_idle (σ : gmap nat value) (h : host) :
  rtc host_step (host_initial σ) h →
  ∀ cell, EvStatus cell Idle ∉ log (executor h).
Proof.
  intros Hrtc.
  assert (Hall : Forall (λ e, announces_idle e = false) (log (executor h))).
  { refine (rtc_ind_r (R := host_step)
              (λ h, Forall (λ e, announces_idle e = false) (log (executor h)))
              (host_initial σ) _ _ h Hrtc).
    - constructor.
    - intros y z _ Hstep IH.
      destruct Hstep as [op y|op y|k op payload y Hop|p outcome y Hp|l v y]; simpl.
      + done.
      + destruct (createOptimisticAction_host op y) as [σ' ->]. done.
      + destruct (runOptimistic_never_idle k op payload (executor y)) as (es & -> & Hes).
        by apply Forall_app_2.
      + destruct (resume_never_idle p outcome (executor y)) as (es & -> & Hes).
        by apply Forall_app_2.
      + done. }
  intros cell Hin. rewrite Forall_forall in Hall. by specialize (Hall _ Hin).
Qed.

(** ** The counter and the runs in flight *)

Lemma suspended_insert k (m : gmap nat frame) n fr :
  m !! n = None →
  size (filter (λ pf : nat * frame, fr_opKey pf.2 = k) (<[n := fr]> m))
  = if decide (fr_opKey fr = k)
    then S (size (filter (λ pf : nat * frame, fr_opKey pf.2 = k) m))
    else size (filter (λ pf : nat * frame, fr_opKey pf.2 = k) m).
Proof.
  intros Hn. rewrite map_filter_insert. simpl. case_decide.
  - rewrite map_size_insert_None; [done|]. by apply map_lookup_filter_None_2; left.
  - by rewrite delete_id.
Qed.

Lemma suspended_delete k (m : gmap nat frame) p fr :
  m !! p = Some fr →
  if decide (fr_opKey fr = k)
  then S (size (filter (λ pf : nat * frame, fr_opKey pf.2 = k) (delete p m)))
       = size (filter (λ pf : nat * frame, fr_opKey pf.2 = k) m)
  else size (filter (λ pf : nat * frame, fr_opKey pf.2 = k) (delete p m))
       = size (filter (λ pf : nat * frame, fr_opKey pf.2 = k) m).
Proof.
  intros Hp. case_decide as Hk.
  - rewrite <- (insert_delete_id m p fr) at 2 by done.
    rewrite suspended_insert by apply lookup_delete_eq. by rewrite decide_True.
  - rewrite map_filter_delete_not; [done|]. intros y Hy. simpl. congruence.
Qed.

Lemma counted_run objs st opKey op payload :
  invariant objs st → counted st → counted (runOptimistic opKey op payload st).2.
Proof.
  intros Hinv Hcnt.
  destruct (attached opKey op st) as [existing|] eqn:Hatt.
  { by rewrite (runOptimistic_attached _ _ _ _ _ Hatt). }
  destruct (run_shape opKey op payload st Hatt) as (σ & ps & fs & es & -> & Hcase).
  assert (Hfresh : awaiting st !! length (promises st) = None).
  { destruct (awaiting st !! length (promises st)) as [fr|] eqn:E; [|done].
    destruct Hinv as [_ Huns _ _ _]. apply Huns, lookup_lt_Some in E. lia. }
  intros k. destruct (Hcnt k) as [Hle Hiff]. unfold suspended_runs in *. simpl.
  assert (Hruns : (size (filter (λ pf : nat * frame, fr_opKey pf.2 = k) fs)
                   ≤ if decide (opKey = k)
                     then S (size (filter (λ pf : nat * frame, fr_opKey pf.2 = k) (awaiting st)))
                     else size (filter (λ pf : nat * frame, fr_opKey pf.2 = k) (awaiting st)))%nat).
  { destruct Hcase as [(e & _ & -> & _)|(o & sn & _ & -> & _)].
    - case_decide; lia.
    - rewrite suspended_insert by done. simpl. reflexivity. }
  destruct (decide (opKey = k)) as [->|Hne].
  - rewrite !lookup_insert_eq. simpl. split; [|by split; eauto].
    destruct (inFlightCount st !! k); simpl in *; lia.
  - rewrite !lookup_insert_ne by done. split; [lia | done].
Qed.

Lemma counted_resume st p outcome :
  counted st → counted (resume p outcome st).
Proof.
  intros Hcnt. destruct (awaiting st !! p) as [fr|] eqn:Hfr.
  2:{ unfold resume. by rewrite Hfr. }
  destruct (resume_shape p outcome st fr Hfr) as (σ & es & s & _ & ->).
  intros k. destruct (Hcnt k) as [Hle Hiff].
  pose proof (suspended_delete k _ _ _ Hfr) as Hdel.
  unfold suspended_runs in *. fields.
  rewrite finally_block_awaiting. unfold finally_block. cbn [inFlightCount awaiting].
  destruct (decide (fr_opKey fr = k)) as [Hk|Hk].
  - rewrite Hk.
    destruct (inFlightCount st !! k) as [c|] eqn:Hc; simpl in Hle; [|lia].
    simpl. case_decide; simpl.
    + rewrite lookup_insert_eq. simpl. split; [lia|].
      split; [intros _; apply Hiff; eauto | eauto].
    + rewrite !lookup_delete_eq. simpl. split; [lia|]. by split; intros [? ?].
  - case_decide; simpl.
    + rewrite lookup_insert_ne by done. split; [lia | done].
    + rewrite !lookup_delete_ne by done. split; [lia | done].
Qed.

(** X6. The bookkeeping is not dropped while a run is in flight. In every
    state the program reaches, the counter of a descriptor is at least the
    number of its runs suspended on their confirming operation, and a
    descriptor has a counter exactly when it has a stored promise; so while
    a run of the descriptor is suspended, under either policy, its counter
    is positive and a promise is stored for it. *)
Theorem X6_counter_covers_runs_in_flight (σ : gmap nat value) (h : host) (k : nat) :
  rtc host_step (host_initial σ) h →
  Z.of_nat (suspended_runs k (executor h)) ≤ default 0 (inFlightCount (executor h) !! k)
  ∧ (is_Some (inFlightCount (executor h) !! k) ↔ is_Some (inFlightPromise (executor h) !! k))
  ∧ (∀ p fr, awaiting (executor h) !! p = Some fr → fr_opKey fr = k →
       0 < default 0 (inFlightCount (executor h) !! k)
       ∧ is_Some (inFlightPromise (executor h) !! k)).
Proof.
  intros Hrtc.
  assert (Hboth : host_invariant h ∧ counted (executor h)).
  { refine (rtc_ind_r (R := host_step)
              (λ h, host_invariant h ∧ counted (executor h))
              (host_initial σ) _ _ h Hrtc).
    - split; [apply host_invariant_initial|].
      intros k'. unfold suspended_runs. simpl.
      rewrite map_filter_empty, map_size_empty, !lookup_empty. simpl.
      split; [lia|]. by split; intros [? ?].
    - intros y z _ Hstep [Hinv Hcnt]. split; [by eapply host_invariant_step|].
      destruct Hstep as [op y|op y|k' op payload y Hop|p outcome y Hp|l v y]; simpl.
      + done.
      + destruct (createOptimisticAction_host op y) as [σ' ->]. done.
      + eapply counted_run; [apply (hinv_executor _ Hinv) | done].
      + by apply counted_resume.
      + done. }
  destruct Hboth as [_ Hcnt]. destruct (Hcnt k) as [Hle Hiff].
  split_and!; [done | done |].
  intros p fr Hfr Hk.
  assert (0 < suspended_runs k (executor h))%nat as Hpos.
  { unfold suspended_runs.
    pose proof (suspended_delete k _ _ _ Hfr) as Hdel. rewrite decide_True in Hdel by done.
    lia. }
  assert (0 < default 0 (inFlightCount (executor h) !! k)) as Hc by lia.
  split; [done|]. apply Hiff.
  destruct (inFlightCount (executor h) !! k); simpl in *; [eauto | lia].
Qed.

(** ** Runs that overlap *)

(** The automatic reversal, for a run started in [st] and resumed in any
    later state. *)
Lemma rejected_restores objs opKey op payload st optimistic p st1 st2 err key ref :
  attached opKey op st = None →
  Object_keys (sources op) ≠ [] →
  mutate op (prior_snapshot op st) payload = Normal optimistic →
  runOptimistic opKey op payload st = (p, st1) →
  rtc (step objs) st1 st2 →
  is_Some (awaiting st2 !! p) →
  rollback op = None →
  targets_off_sources op →
  sources_get (sources op) key = Some ref →
  cells (resume p (inr err) st2) !!! target_cell ref = cells st !!! target_cell ref.
Proof.
  intros Hatt Hkeys Hmut Hrun Hrtc Hsusp Hrb Hoff Hget.
  destruct (suspended_later objs _ _ _ _ _ _ _ _ Hatt Hkeys Hmut Hrun Hrtc Hsusp)
    as (Hfr & _ & _).
  rewrite (resume_rejected_auto _ _ _ _ Hfr Hrb).
  rewrite write_sources_spec, setStatus_spec, setError_spec. fields.
  rewrite finally_block_cells. cbn [cells fr_op fr_snapshot].
  pose proof (source_cell_elem _ _ _ Hget) as Hin.
  rewrite !lookup_total_alt, !setTarget_other.
  - rewrite (write_cells_hit _ _ _ _ key ref); [|left|done|].
    + simpl. rewrite (prior_snapshot_get _ _ _ _ Hget). by rewrite lookup_total_alt.
    + by eapply sources_get_in_keys.
    + intros key' ref' _ Hget' Hcell.
      rewrite (prior_snapshot_get _ _ _ _ Hget'), (prior_snapshot_get _ _ _ _ Hget).
      by rewrite Hcell.
  - intros r Hr. by eapply targets_off_status.
  - intros r Hr. by eapply targets_off_error.
Qed.

Lemma attached_allow opKey op st :
  default allow (concurrency op) = allow → attached opKey op st = None.
Proof. intros Hpol. unfold attached. by rewrite Hpol. Qed.

(** X7. Under ['allow'] a second run started while a first is in flight
    takes the first run's optimistic values as its prior snapshot, and its
    automatic reversal writes those values back: when the second run
    fails, every source cell ends at the value the first run's mutation
    computed, whatever has happened in between, also when the first run
    has failed and been reversed meanwhile. (Distinct source cells, none
    of them the status or error cell, no custom rollback.) *)
Theorem X7_overlapping_reversal_restores_first_optimistic
    (objs : nat → option OptimisticOperation)
    (opKey : nat) (op : OptimisticOperation) (payloadA payloadB : value)
    (st stA stB st3 : state) (optimisticA optimisticB : gmap string value)
    (pA pB : nat) (err : value) :
  default allow (concurrency op) = allow →
  Object_keys (sources op) ≠ [] →
  rollback op = None →
  distinct_sources op →
  targets_off_sources op →
  mutate op (prior_snapshot op st) payloadA = Normal optimisticA →
  runOptimistic opKey op payloadA st = (pA, stA) →
  mutate op (prior_snapshot op stA) payloadB = Normal optimisticB →
  runOptimistic opKey op payloadB stA = (pB, stB) →
  rtc (step objs) stB st3 →
  is_Some (awaiting st3 !! pB) →
  ∀ key ref, sources_get (sources op) key = Some ref →
    snapshot_get (prior_snapshot op stA) key = snapshot_get optimisticA key
    ∧ cells (resume pB (inr err) st3) !!! target_cell ref = snapshot_get optimisticA key.
Proof.
  intros Hpol Hkeys Hrb Hnd Hoff HmutA HrunA HmutB HrunB Hrtc Hsusp key ref Hget.
  assert (HA : cells stA !!! target_cell ref = snapshot_get optimisticA key).
  { rewrite (runOptimistic_started _ _ _ _ _ (attached_allow _ _ _ Hpol) Hkeys HmutA)
      in HrunA.
    injection HrunA as _ <-. cbn [cells].
    pose proof (source_cell_elem _ _ _ Hget) as Hin.
    rewrite lookup_total_alt, !setTarget_other.
    - rewrite (write_cells_hit _ _ _ _ key ref); [done|left|done|].
      + by eapply sources_get_in_keys.
      + intros key' ref' _ Hget' Hcell.
        by rewrite (distinct_sources_key _ _ _ _ _ Hnd Hget' Hget Hcell).
    - intros r Hr. by eapply targets_off_status.
    - intros r Hr. by eapply targets_off_error. }
  split.
  - by rewrite (prior_snapshot_get _ _ _ _ Hget).
  - rewrite <- HA.
    by apply (rejected_restores objs opKey op payloadB stA optimisticB pB stB st3 err key ref
               (attached_allow _ _ _ Hpol)).
Qed.

(** ** [createOptimisticAction] *)

Lemma createRef_fresh v σ :
  (target_cell (fst (createRef v σ)) ∉ dom σ)
  ∧ snd (createRef v σ) !! target_cell (fst (createRef v σ)) = Some v
  ∧ (∀ l, l ∈ dom σ → snd (createRef v σ) !! l = σ !! l)
  ∧ dom (snd (createRef v σ)) = {[ target_cell (fst (createRef v σ)) ]} ∪ dom σ.
Proof.
  unfold createRef. simpl. split_and!.
  - apply is_fresh.
  - apply lookup_insert_eq.
  - intros l Hl. apply lookup_insert_ne. intros <-. by apply (is_fresh (dom σ)).
  - apply dom_insert_L.
Qed.

(** X8. The action of a descriptor. [createOptimisticAction] hands out a
    target the descriptor has as it is, and makes a cell for one it lacks:
    a new cell, no cell of the store before, that holds ['idle'] (status)
    or [null] (error). The object its [run] works on has the descriptor's
    sources, mutation, policy and rollback and these two targets. No cell
    there was is changed. When the cells of the descriptor's sources and
    targets exist, the two handles are different cells as soon as one of
    them was made, and a made target is no source cell. *)
Theorem X8_action_targets
    (op : OptimisticOperation) (h : host) :
  (∀ l, l ∈ source_cells op ++ target_cells op → l ∈ dom (cells (executor h))) →
  let a := (createOptimisticAction op h).1 in
  let h' := (createOptimisticAction op h).2 in
  act_op a = mkOperation (sources op) (mutate op) (concurrency op)
               (Some (act_status a)) (Some (act_error a)) (rollback op)
  ∧ (∀ r, status op = Some r → act_status a = r)
  ∧ (∀ r, error op = Some r → act_error a = r)
  ∧ (status op = None →
       (target_cell (act_status a) ∉ dom (cells (executor h)))
       ∧ cells (executor h') !! target_cell (act_status a) = Some (VStr "idle"))
  ∧ (error op = None →
       (target_cell (act_error a) ∉ dom (cells (executor h)))
       ∧ cells (executor h') !! target_cell (act_error a) = Some VNull)
  ∧ (∀ l, l ∈ dom (cells (executor h)) →
       cells (executor h') !! l = cells (executor h) !! l)
  ∧ (status op = None ∨ error op = None →
       target_cell (act_status a) ≠ target_cell (act_error a))
  ∧ (targets_off_sources op → targets_off_sources (act_op a)).
Proof.
  intros Hexist a h'. subst a h'.
  set (σ := cells (executor h)) in *.
  assert (Hsrc : ∀ l, l ∈ source_cells op → l ∈ dom σ).
  { intros l Hl. apply Hexist, elem_of_app. by left. }
  assert (Htgt : ∀ l, l ∈ target_cells op → l ∈ dom σ).
  { intros l Hl. apply Hexist, elem_of_app. by right. }
  pose proof (createRef_fresh (status_value Idle) σ) as (Hnew1 & Hval1 & Hold1 & Hdom1).
  pose proof (createRef_fresh VNull σ) as (HnewE & HvalE & HoldE & _).
  pose proof (createRef_fresh VNull (snd (createRef (status_value Idle) σ)))
    as (Hnew2 & Hval2 & Hold2 & _).
  unfold createOptimisticAction. fold σ.
  destruct (status op) as [rs|] eqn:Hs; destruct (error op) as [re|] eqn:He;
    unfold createRef in *; cbn [fst snd target_cell] in *;
    cbn [fst snd act_op act_status act_error executor cells set_cells].
  - split_and!; try done.
    + by intros r [= ->].
    + by intros r [= ->].
    + by intros [?|?].
    + unfold targets_off_sources, target_cells. simpl. by rewrite Hs, He.
  - split_and!; try done.
    + by intros r [= ->].
    + intros _ Heq. simpl in Heq. apply HnewE. rewrite <- Heq.
      apply Htgt. unfold target_cells. rewrite Hs. apply elem_of_app. left.
      apply list_elem_of_here.
    + unfold targets_off_sources, target_cells. simpl. rewrite Hs, He. simpl.
      intros Hoff. apply Forall_cons in Hoff as [Hrs _].
      repeat constructor; [done|]. intros Hin. by apply HnewE, Hsrc.
  - split_and!; try done.
    + by intros r [= ->].
    + intros _ Heq. simpl in Heq. apply Hnew1. rewrite Heq.
      apply Htgt. unfold target_cells. rewrite He. apply elem_of_app. right.
      apply list_elem_of_here.
    + unfold targets_off_sources, target_cells. simpl. rewrite Hs, He. simpl.
      intros Hoff. apply Forall_cons in Hoff as [Hre _].
      repeat constructor; [|done]. intros Hin. by apply Hnew1, Hsrc.
  - assert (Hin1 : fresh (dom σ) ∈ dom (<[fresh (dom σ) := status_value Idle]> σ)).
    { rewrite Hdom1. apply elem_of_union_l. by apply elem_of_singleton. }
    assert (Hsub : ∀ l, l ∈ dom σ → l ∈ dom (<[fresh (dom σ) := status_value Idle]> σ)).
    { intros l Hl. rewrite Hdom1. by apply elem_of_union_r. }
    assert (Hne : fresh (dom (<[fresh (dom σ) := status_value Idle]> σ)) ≠ fresh (dom σ)).
    { intros Heq. apply Hnew2. by rewrite Heq. }
    assert (Hnew2' : fresh (dom (<[fresh (dom σ) := status_value Idle]> σ)) ∉ dom σ).
    { intros Hin. by apply Hnew2, Hsub. }
    split_and!; try done.
    + intros _. split; [done|]. simpl. rewrite Hold2; [exact Hval1 | exact Hin1].
    + intros l Hl. rewrite Hold2; [by apply Hold1 | by apply Hsub].
    + unfold targets_off_sources, target_cells. simpl. intros _.
      repeat constructor; intros Hin; [by apply Hnew1, Hsrc | by apply Hnew2', Hsrc].
Qed.

Lemma new_action_gate op h :
  host_invariant h →
  objects h !! act_key (createOptimisticAction op h).1 = None
  ∧ inFlightCount (executor (snd (createOptimisticAction op h)))
      !! act_key (fst (createOptimisticAction op h)) = None
  ∧ inFlightPromise (executor (snd (createOptimisticAction op h)))
      !! act_key (fst (createOptimisticAction op h)) = None
  ∧ attached (act_key (createOptimisticAction op h).1)
      (act_op (createOptimisticAction op h).1)
      (executor (createOptimisticAction op h).2) = None.
Proof.
  intros [Hinv Hc Hs].
  assert (Hkey : act_key (createOptimisticAction op h).1 = fresh (dom (objects h))).
  { unfold createOptimisticAction.
    by destruct (status op), (error op). }
  destruct (createOptimisticAction_host op h) as [σ Hh]. rewrite Hh, Hkey. simpl.
  assert (Hnew : objects h !! fresh (dom (objects h)) = None).
  { apply not_elem_of_dom, is_fresh. }
  assert (Hcount : inFlightCount (executor h) !! fresh (dom (objects h)) = None).
  { destruct (inFlightCount (executor h) !! fresh (dom (objects h))) eqn:E; [|done].
    destruct (Hc (fresh (dom (objects h)))) as [x Hx]; [eauto | congruence]. }
  assert (Hstored : inFlightPromise (executor h) !! fresh (dom (objects h)) = None).
  { destruct (inFlightPromise (executor h) !! fresh (dom (objects h))) eqn:E; [|done].
    destruct (Hs (fresh (dom (objects h)))) as [x Hx]; [eauto | congruence]. }
  split_and!; try done.
  unfold attached. simpl. rewrite Hcount, Hstored.
  by destruct (default allow _); [|case_decide].
Qed.

Lemma createOptimisticAction_op op h :
  act_key (createOptimisticAction op h).1 = fresh (dom (objects h))
  ∧ act_op (createOptimisticAction op h).1
    = mkOperation (sources op) (mutate op) (concurrency op)
        (Some (act_status (createOptimisticAction op h).1))
        (Some (act_error (createOptimisticAction op h).1)) (rollback op)
  ∧ objects (createOptimisticAction op h).2
    = <[fresh (dom (objects h)) := act_op (createOptimisticAction op h).1]> (objects h).
Proof.
  unfold createOptimisticAction. by destruct (status op), (error op).
Qed.

Lemma readTarget_hit r v σ : readTarget r (setTarget (Some r) v σ) = v.
Proof. by rewrite readTarget_lookup, lookup_total_alt, setTarget_hit. Qed.

Lemma readTarget_other r r' v σ :
  target_cell r' ≠ target_cell r →
  readTarget r (setTarget (Some r') v σ) = readTarget r σ.
Proof.
  intros Hne. rewrite !readTarget_lookup, !lookup_total_alt, setTarget_other; [done|].
  by intros ? [= <-].
Qed.

(** X9. The handles of an action show its run. For an action just made
    whose status and error handles are different cells (as they are when
    one of them was made for it), after [run] has returned the status reads
    ['pending'] and the error reads [null]; when the confirming operation
    then resolves, the status reads ['success'], the error still [null],
    and the promise has the result; when it rejects with [err] (and a
    custom rollback handler returns), the status reads ['error'], the error
    reads [err], and the promise is rejected with [err]. *)
Theorem X9_handles_show_the_run
    (σ : gmap nat value) (h : host) (op : OptimisticOperation) (payload : value)
    (optimistic : gmap string value) :
  rtc host_step (host_initial σ) h →
  let a := (createOptimisticAction op h).1 in
  let h1 := (createOptimisticAction op h).2 in
  let p := (run a payload h1).1 in
  let st2 := executor (run a payload h1).2 in
  target_cell (act_status a) ≠ target_cell (act_error a) →
  Object_keys (sources op) ≠ [] →
  mutate op (prior_snapshot op (executor h1)) payload = Normal optimistic →
  (readTarget (act_status a) (cells st2) = VStr "pending"
   ∧ readTarget (act_error a) (cells st2) = VNull)
  ∧ (∀ result,
       readTarget (act_status a) (cells (resume p (inl result) st2)) = VStr "success"
       ∧ readTarget (act_error a) (cells (resume p (inl result) st2)) = VNull
       ∧ promises (resume p (inl result) st2) !! p = Some (Fulfilled result))
  ∧ (∀ err,
       (∀ handler, rollback op = Some handler →
          (handler (mkRollbackCtx payload optimistic (prior_snapshot op (executor h1)) err)
             (cells st2)).2 = None) →
       readTarget (act_status a) (cells (resume p (inr err) st2)) = VStr "error"
       ∧ readTarget (act_error a) (cells (resume p (inr err) st2)) = err
       ∧ promises (resume p (inr err) st2) !! p = Some (Rejected err)).
Proof.
  intros Hreach a h1 p st2 Hne Hkeys Hmut. subst p st2.
  pose proof (host_invariant_reachable _ _ Hreach) as Hinv.
  destruct (new_action_gate op h Hinv) as (_ & _ & _ & Hatt).
  destruct (createOptimisticAction_op op h) as (_ & Hop & _).
  fold a h1 in Hatt, Hop.
  set (op' := act_op a) in *.
  assert (Hmut' : mutate op' (prior_snapshot op' (executor h1)) payload = Normal optimistic).
  { by rewrite Hop. }
  assert (Hkeys' : Object_keys (sources op') ≠ []) by by rewrite Hop.
  unfold run. fold op'.
  rewrite (runOptimistic_started _ _ _ _ _ Hatt Hkeys' Hmut'). cbn [fst snd executor].
  set (snapshot := prior_snapshot op' (executor h1)).
  assert (Hsnap : prior_snapshot op (executor h1) = snapshot) by (subst snapshot; by rewrite Hop).
  set (fr := mkFrame (act_key a) op' payload optimistic snapshot).
  set (n := length (promises (executor h1))).
  match goal with |- context [resume _ _ ?s] => set (st2 := s) end.
  assert (Hfr : awaiting st2 !! n = Some fr) by apply lookup_insert_eq.
  assert (Hlen : (n < length (promises st2))%nat).
  { subst st2 n. simpl. rewrite length_app. simpl. lia. }
  assert (Hst : status op' = Some (act_status a)) by by rewrite Hop.
  assert (Her : error op' = Some (act_error a)) by by rewrite Hop.
  assert (Hcells2 : readTarget (act_status a) (cells st2) = VStr "pending"
                    ∧ readTarget (act_error a) (cells st2) = VNull).
  { subst st2. cbn [cells]. rewrite Hst, Her. split.
    - rewrite readTarget_other by done. apply readTarget_hit.
    - apply readTarget_hit. }
  split_and!; [apply Hcells2 | apply Hcells2 | |].
  - intros result.
    rewrite (resume_resolved _ _ _ _ Hfr), setStatus_spec. fields.
    rewrite finally_block_cells, finally_block_promises. cbn [cells promises fr_op fr].
    rewrite Hst. split_and!.
    + apply readTarget_hit.
    + rewrite readTarget_other by done. apply Hcells2.
    + by apply list_lookup_insert_eq.
  - intros err Hret.
    assert (Hshape : ∃ σ',
              cells (resume n (inr err) st2)
              = setTarget (error op') err (setTarget (status op') (status_value Error) σ')
              ∧ promises (resume n (inr err) st2) = <[n := Rejected err]> (promises st2)).
    { destruct (rollback op') as [handler|] eqn:Hrb.
      - assert (Hrb' : rollback op = Some handler) by (rewrite Hop in Hrb; exact Hrb).
        specialize (Hret handler Hrb'). rewrite Hsnap in Hret.
        destruct (handler (mkRollbackCtx payload optimistic snapshot err) (cells st2))
          as [σ' thrown] eqn:Hh.
        simpl in Hret. subst thrown. exists σ'.
        rewrite (resume_rejected_custom n err st2 fr handler σ' Hfr Hrb Hh).
        rewrite setStatus_spec, setError_spec. fields.
        by rewrite finally_block_cells, finally_block_promises.
      - eexists.
        rewrite (resume_rejected_auto n err st2 fr Hfr Hrb).
        rewrite write_sources_spec, setStatus_spec, setError_spec. fields.
        by rewrite finally_block_cells, finally_block_promises. }
    destruct Hshape as (σ' & -> & ->). rewrite Hst, Her. split_and!.
    + rewrite readTarget_other by done. apply readTarget_hit.
    + apply readTarget_hit.
    + by apply list_lookup_insert_eq.
Qed.

(** X10. Under ['ignore'] an action runs once at a time: in every state the
    program reaches, [action.run] called while a run of that action is
    suspended on its confirming operation returns the promise of that run
    and changes nothing. ([run] works on the one object made when the action
    was made, so all its calls share the bookkeeping.) *)
Theorem X10_action_runs_once_under_ignore
    (σ : gmap nat value) (h : host) (a : OptimisticAction) (payload : value)
    (p : nat) (fr : frame) :
  rtc host_step (host_initial σ) h →
  objects h !! act_key a = Some (act_op a) →
  concurrency (act_op a) = Some ignore →
  awaiting (executor h) !! p = Some fr →
  fr_opKey fr = act_key a →
  run a payload h = (p, h).
Proof.
  intros Hreach Hobj Hpol Hfr Hkey.
  destruct (host_invariant_reachable _ _ Hreach) as [[Hcnt _ Hobjs Hign _] _ _].
  pose proof (Hobjs _ _ Hfr) as Hsame. simpl in Hsame.
  rewrite Hkey, Hobj in Hsame. injection Hsame as Hsame.
  assert (Hpol' : concurrency (fr_op fr) = Some ignore) by by rewrite <- Hsame.
  destruct (Hign _ _ Hfr Hpol') as [Hstored [c Hc]]. rewrite Hkey in *.
  unfold run.
  rewrite (runOptimistic_attached _ _ _ _ p).
  - by destruct h.
  - apply (attached_ignore _ _ _ _ c); [done | done | done | by eapply Hcnt].
Qed.

(** X11. Every action has bookkeeping of its own. The object an action
    runs on is made when the action is made: in every state the program
    reaches, it is an object the program did not have, nothing is in flight
    for it, and the first [run] of the action starts a run with a new
    promise, whatever the policy and whatever runs of the descriptor it was
    made of, or of other actions made of that descriptor, are in flight. *)
Theorem X11_new_action_has_own_bookkeeping
    (σ : gmap nat value) (h : host) (op : OptimisticOperation) (payload : value) :
  rtc host_step (host_initial σ) h →
  let a := (createOptimisticAction op h).1 in
  let h' := (createOptimisticAction op h).2 in
  objects h !! act_key a = None
  ∧ objects h' !! act_key a = Some (act_op a)
  ∧ attached (act_key a) (act_op a) (executor h') = None
  ∧ (∀ p fr, awaiting (executor h') !! p = Some fr → fr_opKey fr ≠ act_key a)
  ∧ (run a payload h').1 = length (promises (executor h'))
  ∧ promises (executor h') !! (run a payload h').1 = None.
Proof.
  intros Hreach a h'.
  pose proof (host_invariant_reachable _ _ Hreach) as Hinv.
  destruct (new_action_gate op h Hinv) as (Hnew & _ & _ & Hatt).
  destruct (createOptimisticAction_op op h) as (Hkey & _ & Hobjs).
  fold a h' in Hnew, Hatt, Hkey, Hobjs.
  assert (Hfst : (run a payload h').1 = length (promises (executor h'))).
  { unfold run.
    destruct (run_shape (act_key a) (act_op a) payload (executor h') Hatt)
      as (σ' & ps & fs & es & -> & _). done. }
  split_and!; try done.
  - rewrite Hobjs, <- Hkey. apply lookup_insert_eq.
  - intros p fr Hfr Heq.
    destruct (createOptimisticAction_host op h) as [σ' Hh]. fold h' in Hh.
    rewrite Hh in Hfr. simpl in Hfr.
    destruct Hinv as [[_ _ Hobj _ _] _ _]. pose proof (Hobj _ _ Hfr) as Hin.
    simpl in Hin. rewrite Heq in Hin. congruence.
  - rewrite Hfst. apply lookup_ge_None. lia.
Qed.

(** X12. A rollback handler that throws hides the failure it was called
    for. In every state the host reaches, when the confirming operation of
    a suspended run rejects with [err] and the custom handler throws
    [thrown], the promise of the run is rejected with [thrown], not with
    [err]; the status and the error target are not written (the call of
    the handler is the last event), the store is as the handler left it,
    and the run is no longer suspended. *)
Theorem X12_throwing_rollback_hides_failure
    (objs : nat → option OptimisticOperation) (σ σ' : gmap nat value) (st : state)
    (p : nat) (fr : frame) (handler : RollbackHandler) (err thrown : value) :
  rtc (step objs) (initial σ) st →
  awaiting st !! p = Some fr →
  rollback (fr_op fr) = Some handler →
  handler (mkRollbackCtx (fr_payload fr) (fr_optimistic fr) (fr_snapshot fr) err) (cells st)
    = (σ', Some thrown) →
  promises (resume p (inr err) st) !! p = Some (Rejected thrown)
  ∧ cells (resume p (inr err) st) = σ'
  ∧ log (resume p (inr err) st)
    = log st ++ [EvRollback (fr_opKey fr)
                   (mkRollbackCtx (fr_payload fr) (fr_optimistic fr) (fr_snapshot fr) err)]
  ∧ awaiting (resume p (inr err) st) !! p = None.
Proof.
  intros Hreach Hfr Hrb Hh.
  destruct (invariant_reachable _ _ _ Hreach) as [_ Huns _ _ _].
  pose proof (Huns _ _ Hfr) as Hp. apply lookup_lt_Some in Hp.
  rewrite (resume_rejected_custom_throws _ _ _ _ _ _ _ Hfr Hrb Hh). fields.
  rewrite finally_block_cells, finally_block_promises, finally_block_log,
    finally_block_awaiting.
  split_and!.
  - by apply list_lookup_insert_eq.
  - done.
  - done.
  - apply lookup_delete_eq.
Qed.

(** ** The statements at the actions of the counter *)

Lemma action_running_reachable :
  rtc host_step (host_initial counter_cells) action_running.2.
Proof.
  eapply rtc_l; [apply (host_create (counter_op (Some ignore) None))|].
  apply rtc_once.
  exact (host_run (act_key action_running.1) (act_op action_running.1) (delta 1)
           (createOptimisticAction (counter_op (Some ignore) None)
              (host_initial counter_cells)).2 eq_refl).
Defined.

Lemma X3_snapshot_at_counter :
  prior_snapshot (counter_op None None) (initial counter_cells) !! "counter"
    = Some (VNum 10)
  ∧ prior_snapshot (counter_op None None) (initial counter_cells) !! "other" = None
  ∧ last (log (counter_called None None).2)
    = Some (EvOperation 7 (mkOperationCtx (delta 5) {[ "counter" := VNum 15 ]}
                             {[ "counter" := VNum 10 ]})).
Proof.
  destruct (X3_snapshot_holds_cells_at_call 7 (counter_op None None) (delta 5)
              (initial counter_cells) {[ "counter" := VNum 15 ]})
    as (Hsnap & Hlast & _); [reflexivity | done | reflexivity |].
  split_and!.
  - exact (Hsnap "counter").
  - exact (Hsnap "other").
  - exact Hlast.
Defined.

Lemma X4_other_cell_at_counter :
  cells (runOptimistic 7 (counter_op None None) (delta 5) (counter_later None None)).2
    !! 9%nat = Some VNull
  ∧ cells (resume 0 (inr (VError "Request failed")) (counter_later None None)) !! 9%nat
    = Some VNull.
Proof.
  assert (Hsrc : 9%nat ∉ source_cells (counter_op None None)).
  { by intros ?%list_elem_of_singleton. }
  assert (Htgt : 9%nat ∉ target_cells (counter_op None None)).
  { intros [?|?%list_elem_of_singleton]%elem_of_cons; done. }
  destruct (X4_writes_only_own_cells 7 (counter_op None None) (delta 5)
              (counter_later None None) 9%nat Hsrc Htgt) as [Hcall Hlater].
  split.
  - exact Hcall.
  - exact (Hlater (counter_later None None) 0%nat
             (mkFrame 7 (counter_op None None) (delta 5)
                {[ "counter" := VNum 15 ]} {[ "counter" := VNum 10 ]})
             (inr (VError "Request failed")) eq_refl eq_refl eq_refl).
Defined.

Lemma X5_no_idle_at_action :
  log (executor action_running.2) ≠ []
  ∧ EvStatus 1%nat Idle ∉ log (executor action_running.2).
Proof.
  split; [done|].
  exact (X5_status_never_back_to_idle _ _ action_running_reachable 1%nat).
Defined.

Lemma X6_counter_at_action :
  0 < default 0 (inFlightCount (executor action_running.2) !! act_key action_running.1)
  ∧ is_Some (inFlightPromise (executor action_running.2) !! act_key action_running.1).
Proof.
  destruct (X6_counter_covers_runs_in_flight _ _ (act_key action_running.1)
              action_running_reachable) as (_ & _ & H).
  exact (H 0%nat
           (mkFrame (act_key action_running.1) (act_op action_running.1) (delta 1)
              {[ "counter" := VNum 11 ]} {[ "counter" := VNum 10 ]})
           eq_refl eq_refl).
Defined.

Lemma X7_overlap_at_counter :
  cells (counter_called None None).2 !!! 0%nat = VNum 15
  ∧ cells (resume 0 (inr (VError "first"))
             (runOptimistic 7 (counter_op None None) (delta 2)
                (counter_called None None).2).2) !!! 0%nat = VNum 10
  ∧ cells (resume 1 (inr (VError "second"))
             (resume 0 (inr (VError "first"))
                (runOptimistic 7 (counter_op None None) (delta 2)
                   (counter_called None None).2).2)) !!! 0%nat = VNum 15.
Proof.
  destruct (counter_cells_apart None None) as [Hnd Hoff].
  split_and!; [reflexivity | reflexivity |].
  refine (proj2 (X7_overlapping_reversal_restores_first_optimistic
            (counter_host None None) 7 (counter_op None None) (delta 5) (delta 2)
            (initial counter_cells) (counter_called None None).2
            (runOptimistic 7 (counter_op None None) (delta 2) (counter_called None None).2).2
            (resume 0 (inr (VError "first"))
               (runOptimistic 7 (counter_op None None) (delta 2)
                  (counter_called None None).2).2)
            {[ "counter" := VNum 15 ]} {[ "counter" := VNum 17 ]} 0%nat 1%nat
            (VError "second")
            eq_refl _ eq_refl Hnd Hoff eq_refl eq_refl eq_refl eq_refl _ _
            "counter" (WritableRef 0) eq_refl)).
  - done.
  - apply rtc_once, step_settle. by eexists.
  - by eexists.
Defined.

Lemma X8_targets_of_bare_action :
  cells (executor bare_action.2) !! target_cell (act_status bare_action.1)
    = Some (VStr "idle")
  ∧ cells (executor bare_action.2) !! target_cell (act_error bare_action.1) = Some VNull
  ∧ cells (executor bare_action.2) !! 0%nat = Some (VNum 10)
  ∧ target_cell (act_status bare_action.1) ≠ target_cell (act_error bare_action.1)
  ∧ act_status (createOptimisticAction (counter_op None None)
                  (host_initial (<[1%nat := VNull]> (<[2%nat := VNull]> counter_cells)))).1
    = WritableRef 1.
Proof.
  assert (Hdom : ∀ l, l ∈ source_cells bare_counter_op ++ target_cells bare_counter_op →
            l ∈ dom (cells (executor (host_initial counter_cells)))).
  { intros l ->%list_elem_of_singleton. by apply elem_of_dom. }
  destruct (X8_action_targets bare_counter_op (host_initial counter_cells) Hdom)
    as (_ & _ & _ & Hst & Her & Hold & Hne & _).
  assert (Hdom' : ∀ l, l ∈ source_cells (counter_op None None)
                          ++ target_cells (counter_op None None) →
            l ∈ dom (cells (executor
                  (host_initial (<[1%nat := VNull]> (<[2%nat := VNull]> counter_cells)))))).
  { intros l Hl. apply elem_of_dom.
    repeat (apply elem_of_cons in Hl as [->|Hl]; [by eexists|]).
    by apply elem_of_nil in Hl. }
  destruct (X8_action_targets (counter_op None None) _ Hdom') as (_ & Hgiven & _).
  split_and!.
  - exact (proj2 (Hst eq_refl)).
  - exact (proj2 (Her eq_refl)).
  - etrans; [apply (Hold 0%nat); by apply elem_of_dom | reflexivity].
  - exact (Hne (or_introl eq_refl)).
  - exact (Hgiven _ eq_refl).
Defined.

Lemma X9_handles_of_bare_action :
  readTarget (act_status bare_action.1)
    (cells (executor (run bare_action.1 (delta 5) bare_action.2).2)) = VStr "pending"
  ∧ readTarget (act_status bare_action.1)
      (cells (resume 0 (inl (VStr "saved"))
                (executor (run bare_action.1 (delta 5) bare_action.2).2))) = VStr "success"
  ∧ readTarget (act_error bare_action.1)
      (cells (resume 0 (inr (VError "Request failed"))
                (executor (run bare_action.1 (delta 5) bare_action.2).2)))
    = VError "Request failed".
Proof.
  destruct (X9_handles_show_the_run counter_cells (host_initial counter_cells)
              bare_counter_op (delta 5) {[ "counter" := VNum 15 ]})
    as ((Hpending & _) & Hok & Hfail).
  - apply rtc_refl.
  - done.
  - done.
  - reflexivity.
  - split_and!.
    + exact Hpending.
    + exact (proj1 (Hok (VStr "saved"))).
    + refine (proj1 (proj2 (Hfail (VError "Request failed") _))). by intros handler [=].
Defined.

Lemma X10_second_run_of_action :
  run action_running.1 (delta 2) action_running.2 = (0%nat, action_running.2).
Proof.
  exact (X10_action_runs_once_under_ignore counter_cells action_running.2
           action_running.1 (delta 2) 0%nat
           (mkFrame (act_key action_running.1) (act_op action_running.1) (delta 1)
              {[ "counter" := VNum 11 ]} {[ "counter" := VNum 10 ]})
           action_running_reachable eq_refl eq_refl eq_refl eq_refl).
Defined.

Lemma X11_second_action_of_counter :
  act_key (createOptimisticAction (counter_op (Some ignore) None) action_running.2).1
    ≠ act_key action_running.1
  ∧ (run (createOptimisticAction (counter_op (Some ignore) None) action_running.2).1
       (delta 2)
       (createOptimisticAction (counter_op (Some ignore) None) action_running.2).2).1
    = 1%nat.
Proof.
  destruct (X11_new_action_has_own_bookkeeping counter_cells action_running.2
              (counter_op (Some ignore) None) (delta 2) action_running_reachable)
    as (_ & _ & _ & _ & Hp & _).
  split; [done | exact Hp].
Defined.

Lemma X12_throwing_handler_at_counter :
  promises (resume 0 (inr (VError "Request failed"))
              (counter_later None (Some rollback_throws))) !! 0%nat
    = Some (Rejected (VError "rollback failed"))
  ∧ cells (resume 0 (inr (VError "Request failed"))
             (counter_later None (Some rollback_throws))) !! 1%nat
    = Some (VStr "pending").
Proof.
  destruct (counter_run_setting None (Some rollback_throws)) as (_ & _ & _ & H4 & H5 & _).
  destruct (X12_throwing_rollback_hides_failure (counter_host None (Some rollback_throws))
              counter_cells (cells (counter_later None (Some rollback_throws)))
              (counter_later None (Some rollback_throws)) 0%nat
              (mkFrame 7 (counter_op None (Some rollback_throws)) (delta 5)
                 {[ "counter" := VNum 15 ]} {[ "counter" := VNum 10 ]})
              rollback_throws (VError "Request failed") (VError "rollback failed"))
    as (Hp & Hc & _); [| reflexivity | reflexivity | reflexivity |].
  - eapply rtc_l; [|exact H5].
    exact (step_run (counter_host None (Some rollback_throws)) 7
             (counter_op None (Some rollback_throws)) (delta 5) (initial counter_cells)
             eq_refl).
  - split; [exact Hp|]. by rewrite Hc.
Defined.
